(** * search-index-key-utils: a verification development for [lib/key-utils.js]

    The module builds, breaks, escapes and tokenizes the key strings of a
    search index.  This file embeds the JavaScript string primitives the
    module calls ([String.prototype.split], [replace] with a global regular
    expression, [indexOf], [substring], [Array.prototype.join]) and then the
    module's own functions on top of them, and proves properties of the
    result. *)

From Stdlib Require Import List NArith ZArith Bool Arith Lia.
Import ListNotations.

(* ================================================================== *)
(** * JavaScript strings and the primitives used by the module        *)
(* ================================================================== *)

Module JS.

(** A JavaScript string is a sequence of UTF-16 code units. *)
Definition char := N.
Definition jsstring := list char.

Definition str_eqb (a b : jsstring) : bool :=
  if list_eq_dec N.eq_dec a b then true else false.

(** [is_prefix p s]: [p] occurs in [s] at index 0. *)
Fixpoint is_prefix (p s : jsstring) : bool :=
  match p, s with
  | [], _ => true
  | _ :: _, [] => false
  | a :: p', b :: s' => N.eqb a b && is_prefix p' s'
  end.

(** ** Regular expressions

    The fragment of the RegExp pattern language that the module writes:
    literal characters, character classes, concatenation, the greedy
    quantifiers [*] and [+], non-capturing groups (which are plain nesting
    here) and negative lookahead [(?!...)].  [REmpty] is the pattern [(?:)]
    that [new RegExp("")] produces.  There are no capture groups, anchors
    or flags: a match at an index depends on the text from that index on
    only, and [split] has no captures to splice in. *)
Inductive regex : Type :=
| REmpty
| RChar (c : char)
| RClass (cs : list char)
| RSeq (r1 r2 : regex)
| RStar (r : regex)
| RPlus (r : regex)
| RNotAhead (r : regex).

Definition accept : jsstring -> option jsstring := fun s => Some s.

(** The greedy loop of a quantifier.  [m] matches one iteration; an
    iteration that consumes nothing is rejected (the RepeatMatcher's
    empty check), so [n], started at the length of the input, is never
    exhausted before the input is. *)
Fixpoint star_loop
    (m : jsstring -> (jsstring -> option jsstring) -> option jsstring)
    (n : nat) (s : jsstring) (k : jsstring -> option jsstring)
    : option jsstring :=
  match n with
  | O => k s
  | S n' =>
      match m s (fun s' => if length s' <? length s
                           then star_loop m n' s' k else None) with
      | Some r => Some r
      | None => k s
      end
  end.

(** Backtracking matcher in continuation-passing style, as in the
    ECMAScript specification: [rmatch r s k] matches [r] at the head of [s]
    and hands the unconsumed rest to [k]; the result is the rest left after
    the whole match. *)
Fixpoint rmatch (r : regex) (s : jsstring)
    (k : jsstring -> option jsstring) : option jsstring :=
  match r with
  | REmpty => k s
  | RChar c =>
      match s with
      | x :: s' => if N.eqb x c then k s' else None
      | [] => None
      end
  | RClass cs =>
      match s with
      | x :: s' => if existsb (N.eqb x) cs then k s' else None
      | [] => None
      end
  | RSeq r1 r2 => rmatch r1 s (fun s' => rmatch r2 s' k)
  | RStar r1 => star_loop (rmatch r1) (length s) s k
  | RPlus r1 =>
      rmatch r1 s (fun s' => star_loop (rmatch r1) (length s') s' k)
  | RNotAhead r1 =>
      match rmatch r1 s accept with
      | Some _ => None
      | None => k s
      end
  end.

(** A matcher tells, for the text that starts at the current index, whether
    the separator matches there and how many code units it spans. *)
Definition matcher := jsstring -> option nat.

Definition match_re (r : regex) : matcher :=
  fun s => match rmatch r s accept with
           | Some rest => Some (length s - length rest)
           | None => None
           end.

(** SplitMatcher for a string separator. *)
Definition match_str (sep : jsstring) : matcher :=
  fun s => if is_prefix sep s then Some (length sep) else None.

(** ** [String.prototype.split]

    The loop of the specification with [p] the start of the pending piece
    and [q] the scan index: [acc] is the pending piece [S[p..q)] (kept
    reversed), the list argument is [S[q..]], and [skip] counts the code
    units of a matched separator still to be stepped over (the source
    jumps with [p = e; q = p]).  A match that ends at [p] (empty, with
    nothing pending) only advances [q]. *)
Fixpoint split_loop (m : matcher) (skip : nat) (acc rest : jsstring)
    : list jsstring :=
  match rest with
  | [] => [rev acc]
  | c :: rest' =>
      match skip with
      | S k => split_loop m k acc rest'
      | O =>
          match m rest with
          | None => split_loop m 0 (c :: acc) rest'
          | Some O =>
              match acc with
              | [] => split_loop m 0 [c] rest'
              | _ :: _ => rev acc :: split_loop m 0 [c] rest'
              end
          | Some (S k) => rev acc :: split_loop m k [] rest'
          end
      end
  end.

Definition split (m : matcher) (s : jsstring) : list jsstring :=
  match s with
  | [] => match m [] with Some _ => [] | None => [[]] end
  | _ :: _ => split_loop m 0 [] s
  end.

(** ** [String.prototype.replace] with a global regular expression and a
    replacement string without [$] patterns. *)
Fixpoint replace_loop (m : matcher) (rep : jsstring) (skip : nat)
    (s : jsstring) : jsstring :=
  match s with
  | [] => match skip, m [] with
          | O, Some _ => rep
          | _, _ => []
          end
  | c :: s' =>
      match skip with
      | S k => replace_loop m rep k s'
      | O =>
          match m s with
          | None => c :: replace_loop m rep 0 s'
          | Some O => rep ++ c :: replace_loop m rep 0 s'
          | Some (S k) => rep ++ replace_loop m rep k s'
          end
      end
  end.

Definition replace_g (r : regex) (rep s : jsstring) : jsstring :=
  replace_loop (match_re r) rep 0 s.

(** ** [String.prototype.indexOf]: first index of [pat] in [s], or -1. *)
Fixpoint indexOf (pat s : jsstring) : Z :=
  if is_prefix pat s then 0%Z
  else match s with
       | [] => (-1)%Z
       | _ :: s' => let i := indexOf pat s' in
                    if (i <? 0)%Z then (-1)%Z else (i + 1)%Z
       end.

(** [s.substring(0, n)] *)
Definition substring0 (n : nat) (s : jsstring) : jsstring := firstn n s.

(** ** [Array.prototype.join] *)
Fixpoint join (sep : jsstring) (l : list jsstring) : jsstring :=
  match l with
  | [] => []
  | [x] => x
  | x :: l' => x ++ sep ++ join sep l'
  end.

End JS.

(* ================================================================== *)
(** * The module [lib/key-utils.js]                                    *)
(* ================================================================== *)

Module KeyUtils.
Import JS.

(** The escape character, and the two separators U+FFED and U+FFEE. *)
Definition backslash : char := 92%N.
Definition tokenSeparator : char := 65517%N.
Definition keySeparator : char := 65518%N.

(** [/[\|' \.,\-|(\n)]+/]: one or more of pipe, quote, space, dot, comma,
    hyphen, pipe, open parenthesis, newline, close parenthesis. *)
Definition defaultWordSeparator : regex :=
  RPlus (RClass [124; 39; 32; 46; 44; 45; 124; 40; 10; 41]%N).

Definition escapeBackslashRegex : regex := RChar backslash.
Definition escapeTokenSeparatorRegex : regex := RChar tokenSeparator.
Definition escapeKeySeparatorRegex : regex := RChar keySeparator.

Definition unescapeBackslashRegex : regex :=
  RSeq (RChar backslash) (RChar backslash).
Definition unescapeTokenSeparatorRegex : regex :=
  RSeq (RChar backslash) (RChar tokenSeparator).
Definition unescapeKeySeparatorRegex : regex :=
  RSeq (RChar backslash) (RChar keySeparator).

Definition escape (str : jsstring) : jsstring :=
  replace_g escapeKeySeparatorRegex [backslash; keySeparator]
    (replace_g escapeTokenSeparatorRegex [backslash; tokenSeparator]
       (replace_g escapeBackslashRegex [backslash; backslash] str)).

Definition unescape (str : jsstring) : jsstring :=
  replace_g unescapeBackslashRegex [backslash]
    (replace_g unescapeKeySeparatorRegex [keySeparator]
       (replace_g unescapeTokenSeparatorRegex [tokenSeparator] str)).

(** [text.split('').reverse().join('')] *)
Definition reverse_string (text : jsstring) : jsstring :=
  join [] (rev (split (match_str []) text)).

Definition reverseSplit (text : jsstring) (reverseSeparator : regex)
    : list jsstring :=
  rev (map reverse_string
         (split (match_re reverseSeparator) (reverse_string text))).

(** [separator + '(?:\\\\)*(?!\\)'] for a separator that is one literal
    character, as both callers pass it. *)
Definition reverseSeparatorRegex (separator : char) : regex :=
  RSeq (RChar separator)
    (RSeq (RStar (RSeq (RChar backslash) (RChar backslash)))
          (RNotAhead (RChar backslash))).

Definition splitOnUnescapedSeparator (text : jsstring) (separator : char)
    : list jsstring :=
  if (indexOf [backslash; separator] text >? 0)%Z
  then reverseSplit text (reverseSeparatorRegex separator)
  else split (match_str [separator]) text.

(** [components] is the array; the variadic form first collects its
    arguments into one. *)
Definition buildKey (components : list jsstring) : jsstring :=
  join [keySeparator] (map escape components).

(** [x || ""] for an argument that is a string or was left out. *)
Definition or_empty (x : option jsstring) : jsstring :=
  match x with
  | Some s => s
  | None => []
  end.

Definition buildSearchKey (prefix field value : jsstring)
    (filter filterKey : option jsstring) : jsstring :=
  join [keySeparator]
    [prefix; field; value; or_empty filter; or_empty filterKey].

Definition buildTermFrequencyKey (field value : jsstring)
    (filter filterKey : option jsstring) : jsstring :=
  buildSearchKey [84; 70]%N field value filter filterKey.

Definition buildReverseIndexKey (field value : jsstring)
    (filter filterKey : option jsstring) : jsstring :=
  buildSearchKey [82; 73]%N field value filter filterKey.

Definition buildFieldInfoKey (field value : jsstring)
    (filter filterKey : option jsstring) : jsstring :=
  buildSearchKey [70; 73]%N field value filter filterKey.

Definition breakKey (key : jsstring) : list jsstring :=
  map unescape (splitOnUnescapedSeparator key keySeparator).

(** ** The store behind [parseKey] and [parseSearchKey]

    Both functions assign to [parts] without declaring it, so [parts] is a
    property of the global object.  Arrays are objects: the heap maps a
    reference to the array's current elements, and [global_parts] is the
    binding of the global ([None] while it has never been assigned). *)
Definition ref := nat.

Record js_state : Type := mkState {
  heap : list (list jsstring);
  global_parts : option ref
}.

(** A computation either throws ([None]) or returns a value and the next
    state. *)
Definition M (A : Type) : Type := js_state -> option (A * js_state).

Definition ret {A} (a : A) : M A := fun st => Some (a, st).

Definition bind {A B} (c : M A) (f : A -> M B) : M B :=
  fun st => match c st with
            | Some (a, st') => f a st'
            | None => None
            end.

Notation "x <- c ;; k" := (bind c (fun x => k))
  (at level 61, c at next level, right associativity).
Notation "c ;;; k" := (bind c (fun _ => k))
  (at level 61, right associativity).

Definition new_array (elems : list jsstring) : M ref :=
  fun st => Some (length (heap st),
                  mkState (heap st ++ [elems]) (global_parts st)).

Definition assign_parts (r : ref) : M unit :=
  fun st => Some (tt, mkState (heap st) (Some r)).

(** Reading an unbound global throws a ReferenceError. *)
Definition read_parts : M ref :=
  fun st => match global_parts st with
            | Some r => Some (r, st)
            | None => None
            end.

Fixpoint update {A} (l : list A) (i : nat) (x : A) : list A :=
  match l, i with
  | [], _ => []
  | _ :: t, O => x :: t
  | h :: t, S j => h :: update t j x
  end.

(** [a.shift()]: removes and returns the first element, [undefined] on an
    empty array. *)
Definition array_shift (r : ref) : M (option jsstring) :=
  fun st => match nth_error (heap st) r with
            | Some [] => Some (None, st)
            | Some (x :: t) =>
                Some (Some x, mkState (update (heap st) r t) (global_parts st))
            | None => None
            end.

(** [a[i]] *)
Definition array_get (r : ref) (i : nat) : M (option jsstring) :=
  fun st => match nth_error (heap st) r with
            | Some a => Some (nth_error a i, st)
            | None => None
            end.

(** [a.slice(i)]: a new array. *)
Definition array_slice (r : ref) (i : nat) : M ref :=
  fun st => match nth_error (heap st) r with
            | Some a => new_array (skipn i a) st
            | None => None
            end.

Record parsed_key : Type := mkParsedKey {
  pk_prefix : option jsstring;
  pk_parts : ref
}.

Record parsed_search_key : Type := mkParsedSearchKey {
  sk_prefix : option jsstring;
  sk_field : option jsstring;
  sk_value : option jsstring;
  sk_filter : option jsstring;
  sk_filterKey : option jsstring;
  sk_trailing : ref
}.

Definition parseKey (key : jsstring) : M parsed_key :=
  a <- new_array (breakKey key) ;;
  assign_parts a ;;;
  p <- read_parts ;;
  first <- array_shift p ;;
  p' <- read_parts ;;
  ret (mkParsedKey first p').

Definition parseSearchKey (key : jsstring) : M parsed_search_key :=
  a <- new_array (breakKey key) ;;
  assign_parts a ;;;
  p0 <- read_parts ;; x0 <- array_get p0 0 ;;
  p1 <- read_parts ;; x1 <- array_get p1 1 ;;
  p2 <- read_parts ;; x2 <- array_get p2 2 ;;
  p3 <- read_parts ;; x3 <- array_get p3 3 ;;
  p4 <- read_parts ;; x4 <- array_get p4 4 ;;
  p5 <- read_parts ;; t <- array_slice p5 5 ;;
  ret (mkParsedSearchKey x0 x1 x2 x3 x4 t).

(** The elements of the array behind a reference. *)
Definition deref (st : js_state) (r : ref) : option (list jsstring) :=
  nth_error (heap st) r.

Definition keyHasPrefix (key prefix : jsstring) : bool :=
  str_eqb (substring0 (length prefix + 1) key) (prefix ++ [keySeparator]).

(** The [separator] argument of [tokenize] and [encode]: left out, [null],
    [false], or a pattern for the RegExp constructor. *)
Inductive separator_arg : Type :=
| SepUndefined
| SepNull
| SepFalse
| SepPattern (r : regex).

(** [new RegExp("")] is the empty pattern. *)
Definition RegExp_of_empty_string : regex := REmpty.

(** [isEncoded] stands for the test [isEncoded === true]. *)
Definition tokenize (text : jsstring) (isEncoded : bool)
    (separator : separator_arg) : list jsstring :=
  if isEncoded then splitOnUnescapedSeparator text tokenSeparator
  else
    let separator' :=
      match separator with
      | SepUndefined => defaultWordSeparator
      | SepNull | SepFalse => RegExp_of_empty_string
      | SepPattern r => r
      end in
    split (match_re separator') text.

Definition encode (text : jsstring) (separator : separator_arg) : jsstring :=
  join [tokenSeparator] (tokenize (escape text) false separator).

End KeyUtils.


(* ================================================================== *)
(** * Specification vocabulary                                        *)
(* ================================================================== *)

Module Spec.
Import JS KeyUtils.

(** Length of the run of escape characters at the start of a string. *)
Fixpoint lead_run (s : jsstring) : nat :=
  match s with
  | x :: s' => if N.eqb x backslash then S (lead_run s') else 0
  | [] => 0
  end.

(** Length of the run of escape characters that ends a string: for the
    text before an occurrence of a separator, the run that precedes it. *)
Definition trail_run (s : jsstring) : nat := lead_run (rev s).

(** The character that follows [pre] is escaped: the run of escape
    characters that ends [pre] has odd length. *)
Definition escaped_after (pre : jsstring) : Prop :=
  Nat.odd (trail_run pre) = true.

(** Every occurrence of [sep] in [s] is escaped. *)
Definition all_escaped (sep : char) (s : jsstring) : Prop :=
  forall pre post, s = pre ++ sep :: post -> escaped_after pre.

(** What [escape] does to one character; with [eT] or [eK] off, the same
    with the escape of that separator already taken away. *)
Definition enc (eT eK : bool) (c : char) : jsstring :=
  if N.eqb c backslash then [backslash; backslash]
  else if N.eqb c tokenSeparator
       then (if eT then [backslash; tokenSeparator] else [tokenSeparator])
  else if N.eqb c keySeparator
       then (if eK then [backslash; keySeparator] else [keySeparator])
  else [c].

(** Left-to-right check that every [sep] in [s] is escaped; [odd_run] is
    the parity of the run of escape characters just read. *)
Fixpoint escaped_scan (sep : char) (odd_run : bool) (s : jsstring) : bool :=
  match s with
  | [] => true
  | x :: s' =>
      if N.eqb x backslash then escaped_scan sep (negb odd_run) s'
      else if N.eqb x sep then odd_run && escaped_scan sep false s'
      else escaped_scan sep false s'
  end.

Definition well_escaped (sep : char) (s : jsstring) : bool :=
  escaped_scan sep false s.

(** The first, resp. last, character of [s] is [c]. *)
Definition head_is (c : char) (s : jsstring) : bool :=
  match s with
  | x :: _ => N.eqb x c
  | [] => false
  end.

Definition last_is (c : char) (s : jsstring) : bool := head_is c (rev s).

(** No fragment but the last ends with the escape character. *)
Definition inner_ends_clean (l : list jsstring) : bool :=
  forallb (fun e => negb (last_is backslash e)) (removelast l).

(** The split as the specification words it (section 4.2), not taken
    from the source: a left-to-right scan that tracks the parity of the
    run of escape characters, cuts at each [sep] that follows an even
    run, and keeps everything else in the fragment. *)
Fixpoint split_unescaped_loop (sep : char) (odd_run : bool)
    (acc s : jsstring) : list jsstring :=
  match s with
  | [] => [rev acc]
  | x :: s' =>
      if N.eqb x backslash
      then split_unescaped_loop sep (negb odd_run) (x :: acc) s'
      else if N.eqb x sep && negb odd_run
           then rev acc :: split_unescaped_loop sep false [] s'
           else split_unescaped_loop sep false (x :: acc) s'
  end.

Definition split_unescaped_spec (text : jsstring) (sep : char)
    : list jsstring :=
  split_unescaped_loop sep false [] text.

(** [key] starts with [prefix] followed immediately by one unescaped
    KEY_SEP. *)
Definition prefix_then_unescaped_sep (key prefix : jsstring) : Prop :=
  (exists rest, key = prefix ++ keySeparator :: rest) /\
  Nat.even (trail_run prefix) = true.

(** [pat] does not occur in [s]. *)
Definition no_occurrence (pat s : jsstring) : Prop :=
  forall pre post, s <> pre ++ pat ++ post.

(** The four shapes of a character under [enc]. *)
Inductive char_kind (c : char) : Prop :=
| IsBackslash : c = backslash -> char_kind c
| IsTokenSep : c = tokenSeparator -> char_kind c
| IsKeySep : c = keySeparator -> char_kind c
| IsPlain : c <> backslash -> c <> tokenSeparator -> c <> keySeparator ->
            char_kind c.

End Spec.

(** Texts used in the examples. *)
Module Sample.
Import JS.
Definition TF : jsstring := [84; 70]%N.
Definition TFX : jsstring := [84; 70; 88]%N.
Definition x : jsstring := [120]%N.
Definition f : jsstring := [102]%N.
Definition a : char := 97%N.
Definition b : char := 98%N.
(** ["hello, world"] *)
Definition hello_world : jsstring :=
  [104; 101; 108; 108; 111; 44; 32; 119; 111; 114; 108; 100]%N.
End Sample.

(** Shapes of texts that the properties of the whole module speak of. *)
Module Shape.
Import JS KeyUtils.

(** One of the three characters that [escape] prefixes. *)
Definition is_special (c : char) : bool :=
  N.eqb c backslash || N.eqb c tokenSeparator || N.eqb c keySeparator.

Definition count_special (s : jsstring) : nat :=
  length (filter is_special s).

(** [c] does not occur in [s]. *)
Definition free_of (c : char) (s : jsstring) : bool :=
  forallb (fun x => negb (N.eqb x c)) s.

(** A component that [buildSearchKey] can take as it is: neither the
    escape character nor KEY_SEP occurs in it. *)
Definition plain_component (s : jsstring) : bool :=
  free_of backslash s && free_of keySeparator s.

(** The characters of the class in [defaultWordSeparator]. *)
Definition wordSeparatorChars : list char :=
  [124; 39; 32; 46; 44; 45; 124; 40; 10; 41]%N.

Definition is_word_separator (c : char) : bool :=
  existsb (N.eqb c) wordSeparatorChars.

(** No word separator occurs in [s]. *)
Definition one_word (s : jsstring) : bool :=
  forallb (fun c => negb (is_word_separator c)) s.

(** Length of the run of characters of the class [cs] that starts [s]. *)
Fixpoint class_run (cs : list char) (s : jsstring) : nat :=
  match s with
  | x :: s' => if existsb (N.eqb x) cs then S (class_run cs s') else 0
  | [] => 0
  end.

(** The first character of [s] is one of the class [cs]. *)
Definition first_in (cs : list char) (s : jsstring) : bool :=
  match s with
  | x :: _ => existsb (N.eqb x) cs
  | [] => false
  end.

(** No escape character of [s] stands immediately before a character
    of the class [cs]. *)
Fixpoint no_escape_before (cs : list char) (s : jsstring) : bool :=
  match s with
  | [] => true
  | x :: s' =>
      negb (N.eqb x backslash && first_in cs s') && no_escape_before cs s'
  end.

(** The pattern that [tokenize] splits on when [isEncoded] is not
    [true]. *)
Definition pattern_of_separator (separator : separator_arg) : regex :=
  match separator with
  | SepUndefined => defaultWordSeparator
  | SepNull | SepFalse => RegExp_of_empty_string
  | SepPattern r => r
  end.

(** Patterns that match one character of a class, or a run of them:
    [c], [[...]], [c+] and [[...]+].  They have no capture group. *)
Definition class_of_pattern (r : regex) : option (list char) :=
  match r with
  | RChar c => Some [c]
  | RClass cs => Some cs
  | RPlus (RChar c) => Some [c]
  | RPlus (RClass cs) => Some cs
  | _ => None
  end.

Definition separator_class (separator : separator_arg)
    : option (list char) :=
  class_of_pattern (pattern_of_separator separator).

(** What a matcher of such a pattern does: nothing at the end of the
    text or before a character outside the class, and otherwise a match
    of that character and no more than the run of the class behind it. *)
Definition class_matcher (cs : list char) (m : matcher) : Prop :=
  m [] = None /\
  forall (x : char) (r : jsstring),
    if existsb (N.eqb x) cs
    then exists k, m (x :: r) = Some (S k) /\ k <= class_run cs r
    else m (x :: r) = None.

(** The parity of the run of escape characters that ends [u], after a
    run of parity [b]. *)
Fixpoint run_parity (b : bool) (u : jsstring) : bool :=
  match u with
  | [] => b
  | x :: u' => run_parity (if N.eqb x backslash then negb b else false) u'
  end.

End Shape.

Import JS KeyUtils Spec Shape.

(* ================================================================== *)
(** * The bound of the quantifier loop                                *)
(* ================================================================== *)

(** A match only hands suffixes no longer than its input to its
    continuation, so two continuations that agree on those give the same
    result. *)
Lemma star_loop_ext
    (m : jsstring -> (jsstring -> option jsstring) -> option jsstring) :
  (forall s k1 k2,
      (forall s', length s' <= length s -> k1 s' = k2 s') ->
      m s k1 = m s k2) ->
  forall n s k1 k2,
    (forall s', length s' <= length s -> k1 s' = k2 s') ->
    star_loop m n s k1 = star_loop m n s k2.
Proof.
  intros Hm. induction n as [|n IH]; intros s k1 k2 Hk; cbn [star_loop].
  - apply Hk. lia.
  - rewrite (Hk s) by lia.
    rewrite (Hm s _ (fun s' => if length s' <? length s
                               then star_loop m n s' k2 else None));
      [reflexivity|].
    intros s' Hs'. destruct (length s' <? length s); [|reflexivity].
    apply IH. intros s'' Hs''. apply Hk. lia.
Qed.

Lemma rmatch_ext (r : regex) :
  forall s k1 k2,
    (forall s', length s' <= length s -> k1 s' = k2 s') ->
    rmatch r s k1 = rmatch r s k2.
Proof.
  induction r as [|c|cs|r1 IH1 r2 IH2|r1 IH1|r1 IH1|r1 IH1];
    intros s k1 k2 Hk; cbn [rmatch].
  - apply Hk. lia.
  - destruct s as [|x s']; [reflexivity|].
    destruct (N.eqb x c); [|reflexivity]. apply Hk. cbn [length]. lia.
  - destruct s as [|x s']; [reflexivity|].
    destruct (existsb (N.eqb x) cs); [|reflexivity].
    apply Hk. cbn [length]. lia.
  - apply IH1. intros s' Hs'. apply IH2. intros s'' Hs''. apply Hk. lia.
  - apply star_loop_ext; assumption.
  - apply IH1. intros s' Hs'. apply star_loop_ext; [assumption|].
    intros s'' Hs''. apply Hk. lia.
  - destruct (rmatch r1 s accept); [reflexivity|]. apply Hk. lia.
Qed.

(** A continuation that always fails makes the match fail. *)
Lemma star_loop_fail
    (m : jsstring -> (jsstring -> option jsstring) -> option jsstring) :
  (forall s k, (forall s', k s' = None) -> m s k = None) ->
  forall n s k, (forall s', k s' = None) -> star_loop m n s k = None.
Proof.
  intros Hm. induction n as [|n IH]; intros s k Hk; cbn [star_loop].
  - apply Hk.
  - rewrite Hm; [apply Hk|].
    intros s'. destruct (length s' <? length s); [now apply IH | reflexivity].
Qed.

Lemma rmatch_fail (r : regex) :
  forall s k, (forall s', k s' = None) -> rmatch r s k = None.
Proof.
  induction r as [|c|cs|r1 IH1 r2 IH2|r1 IH1|r1 IH1|r1 IH1];
    intros s k Hk; cbn [rmatch].
  - apply Hk.
  - destruct s as [|x s']; [reflexivity|].
    destruct (N.eqb x c); [apply Hk | reflexivity].
  - destruct s as [|x s']; [reflexivity|].
    destruct (existsb (N.eqb x) cs); [apply Hk | reflexivity].
  - apply IH1. intros s'. now apply IH2.
  - now apply star_loop_fail.
  - apply IH1. intros s'. now apply star_loop_fail.
  - destruct (rmatch r1 s accept); [reflexivity | apply Hk].
Qed.

Lemma star_loop_nil (r : regex) (n : nat) (k : jsstring -> option jsstring) :
  star_loop (rmatch r) n [] k = k [].
Proof.
  destruct n as [|n]; [reflexivity|]. cbn [star_loop length].
  rewrite rmatch_fail; [reflexivity|]. intros s'. reflexivity.
Qed.

Lemma star_loop_bounds (r : regex) (n : nat) :
  forall n' s k, length s <= n -> length s <= n' ->
    star_loop (rmatch r) n s k = star_loop (rmatch r) n' s k.
Proof.
  induction n as [|n IH]; intros n' s k Hn Hn'.
  - destruct s; [now rewrite !star_loop_nil | cbn [length] in Hn; lia].
  - destruct s as [|x s]; [now rewrite !star_loop_nil|].
    destruct n' as [|n']; cbn [length] in Hn, Hn'; [lia|].
    cbn [star_loop].
    rewrite (rmatch_ext r (x :: s) _
               (fun s' => if length s' <? length (x :: s)
                          then star_loop (rmatch r) n' s' k
                          else None));
      [reflexivity|].
    intros s' Hs'.
    destruct (Nat.ltb_spec (length s') (length (x :: s))) as [Hlt|];
      [|reflexivity].
    cbn [length] in Hlt. apply IH; lia.
Qed.

(** The loop of a quantifier is started with the length of the input as
    its bound; any larger bound gives the same result, so the bound never
    cuts a match short. *)
Lemma star_loop_bound (r : regex) (n : nat) (s : jsstring)
    (k : jsstring -> option jsstring) :
  length s <= n ->
  star_loop (rmatch r) n s k = star_loop (rmatch r) (length s) s k.
Proof. intros H. apply star_loop_bounds; [exact H | lia]. Qed.

(* ================================================================== *)
(** * Matchers of the literal patterns                                *)
(* ================================================================== *)

Lemma match_re_char (c : char) (s : jsstring) :
  match_re (RChar c) s =
  match s with
  | x :: _ => if N.eqb x c then Some 1 else None
  | [] => None
  end.
Proof.
  unfold match_re. destruct s as [|x s']; cbn [rmatch]; [reflexivity|].
  destruct (N.eqb x c); [|reflexivity].
  unfold accept. f_equal. cbn [length]. lia.
Qed.

Lemma match_re_pair (a b : char) (s : jsstring) :
  match_re (RSeq (RChar a) (RChar b)) s =
  match s with
  | x :: y :: _ => if N.eqb x a && N.eqb y b then Some 2 else None
  | _ => None
  end.
Proof.
  unfold match_re. destruct s as [|x [|y s']]; cbn [rmatch]; try reflexivity.
  - destruct (N.eqb x a); reflexivity.
  - destruct (N.eqb x a); cbn [andb]; [|reflexivity].
    destruct (N.eqb y b); [|reflexivity].
    unfold accept. f_equal. cbn [length]. lia.
Qed.

Lemma replace_char (c : char) (rep s : jsstring) :
  replace_g (RChar c) rep s =
  flat_map (fun x => if N.eqb x c then rep else [x]) s.
Proof.
  unfold replace_g. induction s as [|x s IH].
  - reflexivity.
  - cbn [replace_loop flat_map]. rewrite match_re_char.
    destruct (N.eqb x c); rewrite IH; reflexivity.
Qed.

(** One step of a global replace of the two-character pattern [a b]. *)
Lemma replace_pair_nil (a b : char) (rep : jsstring) :
  replace_g (RSeq (RChar a) (RChar b)) rep [] = [].
Proof. reflexivity. Qed.

Lemma replace_pair_hit (a b : char) (rep s : jsstring) :
  replace_g (RSeq (RChar a) (RChar b)) rep (a :: b :: s) =
  rep ++ replace_g (RSeq (RChar a) (RChar b)) rep s.
Proof.
  unfold replace_g. cbn [replace_loop]. rewrite match_re_pair.
  rewrite !N.eqb_refl. reflexivity.
Qed.

Lemma replace_pair_miss (a b x : char) (rep s : jsstring) :
  x <> a \/ (forall y r, s = y :: r -> y <> b) ->
  replace_g (RSeq (RChar a) (RChar b)) rep (x :: s) =
  x :: replace_g (RSeq (RChar a) (RChar b)) rep s.
Proof.
  intros H. unfold replace_g. cbn [replace_loop]. rewrite match_re_pair.
  destruct s as [|y r]; [reflexivity|].
  destruct H as [H|H].
  - apply N.eqb_neq in H. rewrite H. reflexivity.
  - specialize (H y r eq_refl). apply N.eqb_neq in H. rewrite H.
    rewrite andb_false_r. reflexivity.
Qed.


(* ================================================================== *)
(** * The escaper                                                     *)
(* ================================================================== *)

Lemma sep_distinct :
  N.eqb backslash tokenSeparator = false /\
  N.eqb backslash keySeparator = false /\
  N.eqb tokenSeparator backslash = false /\
  N.eqb tokenSeparator keySeparator = false /\
  N.eqb keySeparator backslash = false /\
  N.eqb keySeparator tokenSeparator = false.
Proof. repeat split; reflexivity. Qed.

Lemma char_cases (c : char) : char_kind c.
Proof.
  destruct (N.eq_dec c backslash); [now apply IsBackslash|].
  destruct (N.eq_dec c tokenSeparator); [now apply IsTokenSep|].
  destruct (N.eq_dec c keySeparator); [now apply IsKeySep|].
  now apply IsPlain.
Qed.

Lemma enc_backslash eT eK : enc eT eK backslash = [backslash; backslash].
Proof. reflexivity. Qed.

Lemma enc_tokenSeparator eT eK :
  enc eT eK tokenSeparator =
  if eT then [backslash; tokenSeparator] else [tokenSeparator].
Proof. reflexivity. Qed.

Lemma enc_keySeparator eT eK :
  enc eT eK keySeparator =
  if eK then [backslash; keySeparator] else [keySeparator].
Proof. reflexivity. Qed.

Lemma enc_plain eT eK c :
  c <> backslash -> c <> tokenSeparator -> c <> keySeparator ->
  enc eT eK c = [c].
Proof.
  intros Hb Ht Hk. unfold enc.
  apply N.eqb_neq in Hb, Ht, Hk. rewrite Hb, Ht, Hk. reflexivity.
Qed.

(** The three passes of [escape] amount to one pass that encodes each
    character on its own. *)
Lemma escape_flat_map (s : jsstring) :
  escape s = flat_map (enc true true) s.
Proof.
  unfold escape, escapeBackslashRegex, escapeTokenSeparatorRegex,
    escapeKeySeparatorRegex.
  rewrite !replace_char.
  induction s as [|c s IH]; [reflexivity|].
  cbn [flat_map]. rewrite 2!flat_map_app. f_equal; [|exact IH].
  destruct (char_cases c) as [-> | -> | -> | Hb Ht Hk].
  - reflexivity.
  - reflexivity.
  - reflexivity.
  - rewrite (enc_plain _ _ _ Hb Ht Hk).
    apply N.eqb_neq in Hb, Ht, Hk.
    rewrite Hb. cbn [flat_map app]. rewrite Ht. cbn [flat_map app].
    rewrite Hk. reflexivity.
Qed.

Lemma escape_app (s t : jsstring) : escape (s ++ t) = escape s ++ escape t.
Proof. rewrite !escape_flat_map. apply flat_map_app. Qed.

Lemma escape_cons (c : char) (s : jsstring) :
  escape (c :: s) = enc true true c ++ escape s.
Proof. rewrite !escape_flat_map. reflexivity. Qed.

(** An encoded text never starts with a bare separator, whichever of the
    separator escapes are still in place. *)
Lemma enc_head_not_sep (eT eK : bool) (sep : char) (s : jsstring) :
  (sep = tokenSeparator /\ eT = true) \/ (sep = keySeparator /\ eK = true) ->
  forall y r, flat_map (enc eT eK) s = y :: r -> y <> sep.
Proof.
  intros Hsep y r. destruct s as [|c s]; [discriminate|].
  cbn [flat_map].
  destruct (char_cases c) as [-> | -> | -> | Hb Ht Hk].
  - rewrite enc_backslash. intros [= <- _].
    destruct Hsep as [[-> _] | [-> _]]; discriminate.
  - rewrite enc_tokenSeparator.
    destruct eT; destruct Hsep as [[-> E] | [-> E]]; try discriminate E;
      intros [= <- _]; discriminate.
  - rewrite enc_keySeparator.
    destruct eK; destruct Hsep as [[-> E] | [-> E]]; try discriminate E;
      intros [= <- _]; discriminate.
  - rewrite (enc_plain _ _ _ Hb Ht Hk). intros [= <- _].
    destruct Hsep as [[-> _] | [-> _]]; congruence.
Qed.

Local Ltac miss_left :=
  rewrite replace_pair_miss by (left; first [discriminate | assumption]).

(** First pass of [unescape]: the escapes of TOKEN_SEP go. *)
Lemma unescape_pass_token (s : jsstring) :
  replace_g unescapeTokenSeparatorRegex [tokenSeparator]
    (flat_map (enc true true) s) = flat_map (enc false true) s.
Proof.
  unfold unescapeTokenSeparatorRegex.
  induction s as [|c s IH]; [reflexivity|].
  cbn [flat_map].
  destruct (char_cases c) as [-> | -> | -> | Hb Ht Hk].
  - rewrite !enc_backslash. cbn [app].
    rewrite replace_pair_miss by (right; intros y r [= <- _]; discriminate).
    rewrite replace_pair_miss
      by (right; apply enc_head_not_sep; left; split; reflexivity).
    rewrite IH. reflexivity.
  - rewrite !enc_tokenSeparator. cbn [app].
    rewrite replace_pair_hit, IH. reflexivity.
  - rewrite !enc_keySeparator. cbn [app].
    rewrite replace_pair_miss by (right; intros y r [= <- _]; discriminate).
    miss_left. rewrite IH. reflexivity.
  - rewrite !(enc_plain _ _ _ Hb Ht Hk). cbn [app].
    miss_left. rewrite IH. reflexivity.
Qed.

(** Second pass: the escapes of KEY_SEP go. *)
Lemma unescape_pass_key (s : jsstring) :
  replace_g unescapeKeySeparatorRegex [keySeparator]
    (flat_map (enc false true) s) = flat_map (enc false false) s.
Proof.
  unfold unescapeKeySeparatorRegex.
  induction s as [|c s IH]; [reflexivity|].
  cbn [flat_map].
  destruct (char_cases c) as [-> | -> | -> | Hb Ht Hk].
  - rewrite !enc_backslash. cbn [app].
    rewrite replace_pair_miss by (right; intros y r [= <- _]; discriminate).
    rewrite replace_pair_miss
      by (right; apply enc_head_not_sep; right; split; reflexivity).
    rewrite IH. reflexivity.
  - rewrite !enc_tokenSeparator. cbn [app].
    miss_left. rewrite IH. reflexivity.
  - rewrite !enc_keySeparator. cbn [app].
    rewrite replace_pair_hit, IH. reflexivity.
  - rewrite !(enc_plain _ _ _ Hb Ht Hk). cbn [app].
    miss_left. rewrite IH. reflexivity.
Qed.

(** Last pass: doubled escape characters collapse. *)
Lemma unescape_pass_backslash (s : jsstring) :
  replace_g unescapeBackslashRegex [backslash]
    (flat_map (enc false false) s) = s.
Proof.
  unfold unescapeBackslashRegex.
  induction s as [|c s IH]; [reflexivity|].
  cbn [flat_map].
  destruct (char_cases c) as [-> | -> | -> | Hb Ht Hk].
  - rewrite !enc_backslash. cbn [app].
    rewrite replace_pair_hit, IH. reflexivity.
  - rewrite !enc_tokenSeparator. cbn [app].
    miss_left. rewrite IH. reflexivity.
  - rewrite !enc_keySeparator. cbn [app].
    miss_left. rewrite IH. reflexivity.
  - rewrite !(enc_plain _ _ _ Hb Ht Hk). cbn [app].
    miss_left. rewrite IH. reflexivity.
Qed.

Lemma unescape_escape (s : jsstring) : unescape (escape s) = s.
Proof.
  unfold unescape. rewrite escape_flat_map.
  rewrite unescape_pass_token, unescape_pass_key.
  apply unescape_pass_backslash.
Qed.


(* ================================================================== *)
(** * Runs of escape characters                                       *)
(* ================================================================== *)

Lemma trail_run_nil : trail_run [] = 0.
Proof. reflexivity. Qed.

Lemma trail_run_snoc (s : jsstring) (x : char) :
  trail_run (s ++ [x]) =
  if N.eqb x backslash then S (trail_run s) else 0.
Proof. unfold trail_run. rewrite rev_app_distr. reflexivity. Qed.

Lemma trail_run_snoc_backslash (s : jsstring) :
  trail_run (s ++ [backslash]) = S (trail_run s).
Proof. rewrite trail_run_snoc. reflexivity. Qed.

Lemma trail_run_snoc_other (s : jsstring) (x : char) :
  x <> backslash -> trail_run (s ++ [x]) = 0.
Proof.
  intros H. rewrite trail_run_snoc. apply N.eqb_neq in H. now rewrite H.
Qed.

(** An escaped text ends with an even run of escape characters. *)
Lemma escape_trail_even (s : jsstring) :
  Nat.even (trail_run (escape s)) = true.
Proof.
  induction s as [|c s IH] using rev_ind; [reflexivity|].
  rewrite escape_app, escape_cons. change (escape []) with (@nil char).
  rewrite app_nil_r.
  destruct (char_cases c) as [-> | -> | -> | Hb Ht Hk].
  - rewrite enc_backslash.
    change [backslash; backslash] with ([backslash] ++ [backslash]).
    rewrite !app_assoc, !trail_run_snoc_backslash. exact IH.
  - rewrite enc_tokenSeparator.
    change [backslash; tokenSeparator] with ([backslash] ++ [tokenSeparator]).
    rewrite app_assoc, trail_run_snoc_other by discriminate. reflexivity.
  - rewrite enc_keySeparator.
    change [backslash; keySeparator] with ([backslash] ++ [keySeparator]).
    rewrite app_assoc, trail_run_snoc_other by discriminate. reflexivity.
  - rewrite (enc_plain _ _ _ Hb Ht Hk), trail_run_snoc_other by assumption.
    reflexivity.
Qed.

Lemma odd_S_even (n : nat) : Nat.even n = true -> Nat.odd (S n) = true.
Proof. intros H. rewrite Nat.odd_succ. exact H. Qed.

(** Splitting [l ++ [a; b]] at an occurrence of [x]. *)
Lemma split_at_two (l pre post : jsstring) (a b x : char) :
  l ++ [a; b] = pre ++ x :: post ->
  (exists l', l = pre ++ x :: l') \/
  (pre = l /\ x = a /\ post = [b]) \/
  (pre = l ++ [a] /\ x = b /\ post = []).
Proof.
  revert pre. induction l as [|h l IH]; intros pre H.
  - destruct pre as [|p0 [|p1 [|p2 pre]]]; cbn in H.
    + injection H as <- <-. right; left. auto.
    + injection H as <- <- <-. right; right. auto.
    + injection H as _ _ H. discriminate H.
    + injection H as _ _ H. discriminate H.
  - destruct pre as [|p0 pre]; cbn in H.
    + injection H as <- <-. left. exists l. reflexivity.
    + injection H as <- H. destruct (IH _ H) as [[l' ->] | [[-> [-> ->]] | [-> [-> ->]]]].
      * left. exists l'. reflexivity.
      * right; left. auto.
      * right; right. auto.
Qed.

Lemma split_at_one (l pre post : jsstring) (a x : char) :
  l ++ [a] = pre ++ x :: post ->
  (exists l', l = pre ++ x :: l') \/ (pre = l /\ x = a /\ post = []).
Proof.
  revert pre. induction l as [|h l IH]; intros pre H.
  - destruct pre as [|p0 [|p1 pre]]; cbn in H.
    + injection H as <- <-. right. auto.
    + injection H as _ H. discriminate H.
    + injection H as _ H. discriminate H.
  - destruct pre as [|p0 pre]; cbn in H.
    + injection H as <- <-. left. exists l. reflexivity.
    + injection H as <- H. destruct (IH _ H) as [[l' ->] | [-> [-> ->]]].
      * left. exists l'. reflexivity.
      * right. auto.
Qed.

(** Every separator in an escaped text is escaped. *)
Lemma escape_all_escaped (sep : char) (s : jsstring) :
  sep = tokenSeparator \/ sep = keySeparator ->
  all_escaped sep (escape s).
Proof.
  intros Hsep. unfold all_escaped, escaped_after.
  induction s as [|c s IH] using rev_ind; intros pre post H.
  - destruct pre; discriminate H.
  - rewrite escape_app, escape_cons in H.
    change (escape []) with (@nil char) in H. rewrite app_nil_r in H.
    pose proof (escape_trail_even s) as Hev.
    destruct (char_cases c) as [-> | -> | -> | Hb Ht Hk].
    + rewrite enc_backslash in H.
      apply split_at_two in H.
      destruct H as [[l' H] | [[_ [E _]] | [_ [E _]]]].
      * exact (IH _ _ H).
      * destruct Hsep; subst sep; discriminate E.
      * destruct Hsep; subst sep; discriminate E.
    + rewrite enc_tokenSeparator in H.
      apply split_at_two in H.
      destruct H as [[l' H] | [[_ [E _]] | [-> _]]].
      * exact (IH _ _ H).
      * destruct Hsep; subst sep; discriminate E.
      * rewrite trail_run_snoc_backslash. now apply odd_S_even.
    + rewrite enc_keySeparator in H.
      apply split_at_two in H.
      destruct H as [[l' H] | [[_ [E _]] | [-> _]]].
      * exact (IH _ _ H).
      * destruct Hsep; subst sep; discriminate E.
      * rewrite trail_run_snoc_backslash. now apply odd_S_even.
    + rewrite (enc_plain _ _ _ Hb Ht Hk) in H.
      apply split_at_one in H.
      destruct H as [[l' H] | [_ [E _]]].
      * exact (IH _ _ H).
      * destruct Hsep; subst sep; congruence.
Qed.


(* ================================================================== *)
(** * The unescaped-split engine                                      *)
(* ================================================================== *)

Lemma join_nil_concat (l : list jsstring) : join [] l = concat l.
Proof.
  induction l as [|x [|y l] IH]; [reflexivity| |].
  - cbn. now rewrite app_nil_r.
  - change (join [] (x :: y :: l)) with (x ++ [] ++ join [] (y :: l)).
    rewrite IH. reflexivity.
Qed.

(** A separator that matches the empty string everywhere cuts between
    every two code units. *)
Lemma split_everywhere_loop (m : matcher) (c : char) (s : jsstring) :
  (forall t, m t = Some 0) ->
  split_loop m 0 [c] s = [c] :: map (fun x => [x]) s.
Proof.
  intros Hm. revert c. induction s as [|x s IH]; intros c; [reflexivity|].
  cbn [split_loop map rev app]. rewrite Hm, IH. reflexivity.
Qed.

Lemma split_everywhere (m : matcher) (s : jsstring) :
  (forall t, m t = Some 0) -> split m s = map (fun x => [x]) s.
Proof.
  intros Hm. destruct s as [|c s]; cbn [split map].
  - now rewrite Hm.
  - cbn [split_loop]. rewrite Hm. now apply split_everywhere_loop.
Qed.

(** [text.split('')] lists the code units. *)
Lemma split_chars (s : jsstring) :
  split (match_str []) s = map (fun x => [x]) s.
Proof. apply split_everywhere. reflexivity. Qed.

(** So does a split on the empty pattern. *)
Lemma split_empty_pattern (s : jsstring) :
  split (match_re REmpty) s = map (fun x => [x]) s.
Proof.
  apply split_everywhere. intros t. unfold match_re, accept. cbn [rmatch].
  now rewrite Nat.sub_diag.
Qed.

Lemma reverse_string_rev (s : jsstring) : reverse_string s = rev s.
Proof.
  unfold reverse_string. rewrite split_chars, join_nil_concat.
  induction s as [|c s IH]; [reflexivity|].
  cbn [map rev]. rewrite concat_app, IH. cbn. reflexivity.
Qed.

Lemma lead_run_le (s : jsstring) : lead_run s <= length s.
Proof.
  induction s as [|x s IH]; cbn [lead_run length]; [lia|].
  destruct (N.eqb x backslash); lia.
Qed.

Lemma length_skipn_lead_run (s : jsstring) :
  length (skipn (lead_run s) s) = length s - lead_run s.
Proof. apply length_skipn. Qed.

(** The tail of the reversed-separator pattern: greedy pairs of escape
    characters, then no further escape character.  It succeeds exactly
    on an even run, and takes the whole run. *)
Lemma star_pairs (n : nat) (s : jsstring) :
  length s <= n ->
  star_loop (rmatch (RSeq (RChar backslash) (RChar backslash))) n s
    (fun s' => rmatch (RNotAhead (RChar backslash)) s' accept) =
  if Nat.even (lead_run s) then Some (skipn (lead_run s) s) else None.
Proof.
  revert s. induction n as [|n IH]; intros s Hlen.
  - destruct s; [reflexivity | cbn in Hlen; lia].
  - cbn [star_loop rmatch].
    destruct s as [|x s]; [reflexivity|].
    cbn [lead_run]. destruct (N.eqb_spec x backslash) as [-> | Hx].
    + destruct s as [|y s]; [reflexivity|].
      cbn [lead_run]. destruct (N.eqb_spec y backslash) as [-> | Hy].
      * assert (Hlt : (length s <? length (backslash :: backslash :: s)) = true)
          by (apply Nat.ltb_lt; cbn [length]; lia).
        rewrite Hlt. rewrite IH by (cbn [length] in Hlen; lia).
        change (Nat.even (S (S (lead_run s)))) with (Nat.even (lead_run s)).
        destruct (Nat.even (lead_run s)); reflexivity.
      * reflexivity.
    + reflexivity.
Qed.

(** The reversed-separator pattern at the head of a text: the separator,
    then an even run of escape characters, the whole of which it spans. *)
Lemma match_reverse_separator (sep : char) (s : jsstring) :
  match_re (reverseSeparatorRegex sep) s =
  match s with
  | x :: r =>
      if N.eqb x sep
      then if Nat.even (lead_run r) then Some (S (lead_run r)) else None
      else None
  | [] => None
  end.
Proof.
  unfold match_re, reverseSeparatorRegex.
  destruct s as [|x r]; [reflexivity|].
  cbn [rmatch]. destruct (N.eqb x sep); [|reflexivity].
  change (star_loop (fun s k => rmatch (RChar backslash) s
                      (fun s' => rmatch (RChar backslash) s' k)))
    with (star_loop (rmatch (RSeq (RChar backslash) (RChar backslash)))).
  change (fun s' : jsstring =>
            match rmatch (RChar backslash) s' accept with
            | Some _ => None
            | None => accept s'
            end)
    with (fun s' => rmatch (RNotAhead (RChar backslash)) s' accept).
  rewrite star_pairs by lia.
  destruct (Nat.even (lead_run r)); [|reflexivity].
  f_equal. rewrite length_skipn_lead_run. cbn [length].
  pose proof (lead_run_le r). lia.
Qed.

Lemma match_str_char (sep : char) (s : jsstring) :
  match_str [sep] s =
  match s with
  | x :: _ => if N.eqb x sep then Some 1 else None
  | [] => None
  end.
Proof.
  unfold match_str. destruct s as [|x s]; [reflexivity|].
  cbn [is_prefix]. rewrite N.eqb_sym.
  destruct (N.eqb x sep); reflexivity.
Qed.


(** ** [indexOf] *)

Lemma is_prefix_true (p s : jsstring) :
  is_prefix p s = true <-> exists r, s = p ++ r.
Proof.
  revert s. induction p as [|a p IH]; intros s.
  - split; [intros _; now exists s | reflexivity].
  - destruct s as [|b s]; cbn [is_prefix].
    + split; [discriminate | intros [r H]; discriminate H].
    + rewrite andb_true_iff, N.eqb_eq, IH. split.
      * intros [-> [r ->]]. now exists r.
      * intros [r H]. injection H as -> ->. split; [reflexivity | now exists r].
Qed.

Lemma indexOf_lower (pat s : jsstring) : (-1 <= indexOf pat s)%Z.
Proof.
  induction s as [|x s IH]; cbn [indexOf].
  - destruct (is_prefix pat []); lia.
  - destruct (is_prefix pat (x :: s)); [lia|].
    destruct (Z.ltb_spec (indexOf pat s) 0); lia.
Qed.

Lemma indexOf_zero (pat s : jsstring) :
  indexOf pat s = 0%Z -> is_prefix pat s = true.
Proof.
  destruct s as [|x s]; cbn [indexOf].
  - destruct (is_prefix pat []); [reflexivity | discriminate].
  - destruct (is_prefix pat (x :: s)); [reflexivity|].
    pose proof (indexOf_lower pat s).
    destruct (Z.ltb_spec (indexOf pat s) 0); lia.
Qed.

Lemma indexOf_negative (pat s : jsstring) :
  (indexOf pat s < 0)%Z -> no_occurrence pat s.
Proof.
  unfold no_occurrence.
  induction s as [|x s IH]; cbn [indexOf]; intros H pre post E.
  - destruct (is_prefix pat []) eqn:Hp; [lia|].
    symmetry in E. apply app_eq_nil in E as [-> E].
    apply app_eq_nil in E as [-> _]. discriminate Hp.
  - destruct (is_prefix pat (x :: s)) eqn:Hp; [lia|].
    destruct pre as [|p0 pre].
    + assert (is_prefix pat (x :: s) = true)
        by (apply is_prefix_true; now exists post).
      congruence.
    + injection E as _ E. revert E. apply IH.
      destruct (Z.ltb_spec (indexOf pat s) 0); lia.
Qed.

Lemma no_occurrence_app_l (pat a b : jsstring) :
  no_occurrence pat (a ++ b) -> no_occurrence pat a.
Proof.
  intros H pre post E. apply (H pre (post ++ b)).
  rewrite E, <- !app_assoc. reflexivity.
Qed.

Lemma no_occurrence_app_r (pat a b : jsstring) :
  no_occurrence pat (a ++ b) -> no_occurrence pat b.
Proof.
  intros H pre post E. apply (H (a ++ pre) post).
  rewrite E, <- !app_assoc. reflexivity.
Qed.

(** ** Runs, heads and ends *)

Lemma lead_run_zero (s : jsstring) :
  head_is backslash s = false -> lead_run s = 0.
Proof.
  destruct s as [|x s]; [reflexivity|]. cbn [head_is lead_run].
  now intros ->.
Qed.

Lemma lead_run_app_stop (b tail : jsstring) :
  head_is backslash tail = false -> lead_run (b ++ tail) = lead_run b.
Proof.
  intros H. induction b as [|x b IH]; cbn [app lead_run].
  - now apply lead_run_zero.
  - destruct (N.eqb x backslash); [now rewrite IH | reflexivity].
Qed.

Lemma trail_run_positive (pre : jsstring) :
  0 < trail_run pre -> exists pre', pre = pre' ++ [backslash].
Proof.
  unfold trail_run. intros H.
  destruct (rev pre) as [|x r] eqn:E; [cbn in H; lia|].
  cbn [lead_run] in H. destruct (N.eqb_spec x backslash) as [-> | _]; [|lia].
  exists (rev r). apply (f_equal (@rev char)) in E.
  rewrite rev_involutive in E. exact E.
Qed.

Lemma odd_positive (n : nat) : Nat.odd n = true -> 0 < n.
Proof. destruct n; [discriminate | lia]. Qed.

(** An escaped separator shows as the pair escape character, separator;
    where the pair does not occur, neither does the separator. *)
Lemma all_escaped_no_pair (sep : char) (e : jsstring) :
  all_escaped sep e -> no_occurrence [backslash; sep] e -> ~ In sep e.
Proof.
  intros Hesc Hno Hin.
  apply in_split in Hin as [pre [post ->]].
  pose proof (Hesc pre post eq_refl) as Hodd.
  apply odd_positive, trail_run_positive in Hodd as [pre' ->].
  apply (Hno pre' post). rewrite <- app_assoc. reflexivity.
Qed.


(** ** [join] *)

Lemma join_cons (sep x : jsstring) (l : list jsstring) :
  l <> [] -> join sep (x :: l) = x ++ sep ++ join sep l.
Proof. destruct l; [congruence | reflexivity]. Qed.

Lemma join_snoc (sep x : jsstring) (l : list jsstring) :
  l <> [] -> join sep (l ++ [x]) = join sep l ++ sep ++ x.
Proof.
  induction l as [|y l IH]; [congruence|]. intros _.
  destruct l as [|z l]; [reflexivity|].
  change ((y :: z :: l) ++ [x]) with (y :: ((z :: l) ++ [x])).
  rewrite join_cons by discriminate.
  rewrite IH by discriminate.
  rewrite (join_cons sep y (z :: l)) by discriminate.
  rewrite <- !app_assoc. reflexivity.
Qed.

Lemma rev_join (sep : jsstring) (l : list jsstring) :
  rev (join sep l) = join (rev sep) (rev (map (@rev char) l)).
Proof.
  induction l as [|x l IH]; [reflexivity|].
  destruct l as [|y l].
  - cbn. reflexivity.
  - rewrite join_cons by discriminate.
    rewrite !rev_app_distr, IH, <- app_assoc.
    change (map (@rev char) (x :: y :: l))
      with (rev x :: map (@rev char) (y :: l)).
    change (rev (rev x :: map (@rev char) (y :: l)))
      with (rev (map (@rev char) (y :: l)) ++ [rev x]).
    rewrite join_snoc; [reflexivity|].
    cbn [map rev]. intros E. apply app_eq_nil in E as [_ E]. discriminate E.
Qed.

Lemma join_mid (sep e : jsstring) (l : list jsstring) :
  In e l -> exists a b, join sep l = a ++ e ++ b.
Proof.
  induction l as [|x l IH]; [contradiction|]. intros Hin.
  destruct l as [|y l].
  - destruct Hin as [-> | []]. exists [], []. cbn. now rewrite app_nil_r.
  - rewrite join_cons by discriminate. destruct Hin as [-> | Hin].
    + exists [], (sep ++ join sep (y :: l)). reflexivity.
    + destruct (IH Hin) as [a [b ->]].
      exists (x ++ sep ++ a), b. rewrite <- !app_assoc. reflexivity.
Qed.

Lemma head_is_join (c sepc : char) (x : jsstring) (l : list jsstring) :
  sepc <> c -> head_is c x = false ->
  head_is c (join [sepc] (x :: l)) = false.
Proof.
  intros Hne Hx. destruct l as [|y l]; [exact Hx|].
  rewrite join_cons by discriminate.
  destruct x as [|x0 x]; [|exact Hx].
  cbn. now apply N.eqb_neq.
Qed.

(** ** Lists of fragments *)

Lemma split_start (m : matcher) (s : jsstring) :
  m [] = None -> split m s = split_loop m 0 [] s.
Proof. intros H. destruct s; [cbn; now rewrite H | reflexivity]. Qed.

Lemma rev_rev_app (e acc : jsstring) : rev (rev e ++ acc) = rev acc ++ e.
Proof. now rewrite rev_app_distr, rev_involutive. Qed.

Lemma hd_tl (A : Type) (d : A) (l : list A) : l <> [] -> hd d l :: tl l = l.
Proof. destruct l; [congruence | reflexivity]. Qed.

Lemma removelast_map (A B : Type) (f : A -> B) (l : list A) :
  removelast (map f l) = map f (removelast l).
Proof.
  induction l as [|x [|y l] IH]; [reflexivity | reflexivity |].
  change (f x :: removelast (map f (y :: l)) =
          f x :: map f (removelast (y :: l))).
  now rewrite IH.
Qed.

Lemma tl_rev (A : Type) (l : list A) : tl (rev l) = rev (removelast l).
Proof.
  induction l as [|x l IH] using rev_ind; [reflexivity|].
  rewrite rev_app_distr, removelast_last. reflexivity.
Qed.

Lemma inner_ends_clean_spec (l : list jsstring) (e : jsstring) :
  inner_ends_clean l = true -> In e (removelast l) ->
  last_is backslash e = false.
Proof.
  unfold inner_ends_clean. rewrite forallb_forall. intros H Hin.
  apply H in Hin. now apply negb_true_iff.
Qed.

(** ** The two paths of [splitOnUnescapedSeparator] on a joined text *)

Section JoinedText.

(** The separator is one character and not the escape character, as
    TOKEN_SEP and KEY_SEP are. *)
Variable sep : char.
Hypothesis sep_not_escape : sep <> backslash.

Let plain : matcher := match_str [sep].
Let reversed : matcher := match_re (reverseSeparatorRegex sep).

(** The plain split walks over a fragment without the separator. *)
Lemma scan_plain (e acc tail : jsstring) :
  ~ In sep e ->
  split_loop plain 0 acc (e ++ tail) = split_loop plain 0 (rev e ++ acc) tail.
Proof.
  subst plain.
  revert acc. induction e as [|x e IH]; intros acc Hin; [reflexivity|].
  cbn [app split_loop]. rewrite match_str_char.
  destruct (N.eqb_spec x sep) as [-> | _]; [exfalso; apply Hin; now left|].
  rewrite IH by (intros H; apply Hin; now right).
  cbn [rev]. rewrite <- app_assoc. reflexivity.
Qed.

Lemma split_plain_join (l : list jsstring) (acc : jsstring) :
  l <> [] -> Forall (fun e => ~ In sep e) l ->
  split_loop plain 0 acc (join [sep] l) = (rev acc ++ hd [] l) :: tl l.
Proof.
  revert acc. induction l as [|e l IH]; [congruence|].
  intros acc _ Hall. inversion Hall as [|? ? He Hl]; subst.
  destruct l as [|e' l].
  - cbn [join hd tl]. rewrite <- (app_nil_r e) at 1.
    rewrite scan_plain by assumption. cbn [split_loop].
    now rewrite rev_rev_app.
  - rewrite join_cons by discriminate.
    rewrite scan_plain by assumption.
    cbn [app split_loop]. subst plain. rewrite match_str_char, N.eqb_refl.
    rewrite IH by (assumption || discriminate).
    cbn [hd tl rev app]. now rewrite rev_rev_app.
Qed.

(** The reverse split walks over a reversed fragment in which every
    separator is followed by an odd run of escape characters. *)
Lemma scan_reverse (d acc tail : jsstring) :
  (forall a b, d = a ++ sep :: b -> Nat.odd (lead_run (b ++ tail)) = true) ->
  split_loop reversed 0 acc (d ++ tail) =
  split_loop reversed 0 (rev d ++ acc) tail.
Proof.
  subst reversed.
  revert acc. induction d as [|x d IH]; intros acc H; [reflexivity|].
  cbn [app split_loop]. rewrite match_reverse_separator.
  assert (Hnone : (if N.eqb x sep
                   then if Nat.even (lead_run (d ++ tail))
                        then Some (S (lead_run (d ++ tail))) else None
                   else None) = None).
  { destruct (N.eqb_spec x sep) as [-> | _]; [|reflexivity].
    specialize (H [] d eq_refl). rewrite <- Nat.negb_odd, H. reflexivity. }
  rewrite Hnone.
  rewrite IH by (intros a b ->; exact (H (x :: a) b eq_refl)).
  cbn [rev]. rewrite <- app_assoc. reflexivity.
Qed.

Lemma split_reverse_join (l : list jsstring) (acc : jsstring) :
  l <> [] ->
  Forall (fun d => forall a b, d = a ++ sep :: b ->
                               Nat.odd (lead_run b) = true) l ->
  Forall (fun d => head_is backslash d = false) (tl l) ->
  split_loop reversed 0 acc (join [sep] l) = (rev acc ++ hd [] l) :: tl l.
Proof.
  revert acc. induction l as [|d l IH]; [congruence|].
  intros acc _ Hall Htl. inversion Hall as [|? ? Hd Hl]; subst.
  destruct l as [|d' l].
  - cbn [join hd tl]. rewrite <- (app_nil_r d) at 1.
    rewrite scan_reverse
      by (intros a b E; rewrite app_nil_r; exact (Hd a b E)).
    cbn [split_loop]. now rewrite rev_rev_app.
  - cbn [tl] in Htl. inversion Htl as [|? ? Hd' Hl']; subst.
    rewrite join_cons by discriminate.
    assert (Hrest : head_is backslash (join [sep] (d' :: l)) = false)
      by (now apply head_is_join).
    rewrite scan_reverse.
    2:{ intros a b E. rewrite lead_run_app_stop; [exact (Hd a b E)|].
        cbn. now apply N.eqb_neq. }
    cbn [app split_loop]. subst reversed.
    rewrite match_reverse_separator, N.eqb_refl.
    rewrite (lead_run_zero _ Hrest). cbn [Nat.even].
    rewrite IH by (assumption || discriminate).
    cbn [hd tl rev app]. now rewrite rev_rev_app.
Qed.

(** The general path gives back the fragments of a joined text when each
    fragment has its separators escaped and none but the last ends with
    the escape character. *)
Lemma reverseSplit_join (l : list jsstring) :
  l <> [] ->
  Forall (all_escaped sep) l ->
  inner_ends_clean l = true ->
  reverseSplit (join [sep] l) (reverseSeparatorRegex sep) = l.
Proof.
  intros Hne Hesc Hends. unfold reverseSplit.
  rewrite reverse_string_rev, rev_join. change (rev [sep]) with [sep].
  rewrite split_start by reflexivity.
  assert (Hne' : rev (map (@rev char) l) <> []).
  { intros E. apply (f_equal (@rev jsstring)) in E.
    rewrite rev_involutive in E. destruct l; [congruence | discriminate E]. }
  fold reversed. rewrite split_reverse_join; try assumption.
  - change (rev [] ++ hd [] (rev (map (@rev char) l)))
      with (hd [] (rev (map (@rev char) l))).
    rewrite hd_tl by exact Hne'.
    rewrite (map_ext _ _ reverse_string_rev).
    rewrite map_rev, rev_involutive, map_map.
    rewrite (map_ext _ (fun x => x) (@rev_involutive char)).
    apply map_id.
  - apply Forall_forall. intros d Hd a b E.
    apply in_rev, in_map_iff in Hd as [e [<- He]].
    rewrite Forall_forall in Hesc. specialize (Hesc e He).
    apply (f_equal (@rev char)) in E. rewrite rev_involutive in E.
    rewrite rev_app_distr in E. cbn [rev] in E. rewrite <- app_assoc in E.
    specialize (Hesc _ _ E). unfold escaped_after, trail_run in Hesc.
    now rewrite rev_involutive in Hesc.
  - rewrite tl_rev, removelast_map.
    apply Forall_forall. intros d Hd.
    apply in_rev, in_map_iff in Hd as [e [<- He]].
    exact (inner_ends_clean_spec _ _ Hends He).
Qed.

(** Where the joined text starts with an escaped separator, so does its
    first fragment. *)
Lemma prefix_join (l : list jsstring) :
  inner_ends_clean l = true ->
  is_prefix [backslash; sep] (join [sep] l) = true ->
  is_prefix [backslash; sep] (hd [] l) = true.
Proof.
  intros Hends H.
  destruct l as [|e [|e' l]]; [exact H | exact H |].
  rewrite join_cons in H by discriminate. cbn [hd].
  assert (He : last_is backslash e = false).
  { apply (inner_ends_clean_spec _ _ Hends). now left. }
  destruct e as [|x [|y e]].
  - cbn [app is_prefix] in H. apply andb_true_iff in H as [H _].
    apply N.eqb_eq in H. congruence.
  - cbn [app is_prefix] in H. apply andb_true_iff in H as [H _].
    apply N.eqb_eq in H. subst x. vm_compute in He. discriminate He.
  - exact H.
Qed.

(** The fast path gives back the fragments of a joined text in which the
    pair escape character, separator does not occur. *)
Lemma plain_split_join (l : list jsstring) :
  l <> [] ->
  Forall (all_escaped sep) l ->
  no_occurrence [backslash; sep] (join [sep] l) ->
  split (match_str [sep]) (join [sep] l) = l.
Proof.
  intros Hne Hesc Hno.
  rewrite split_start by reflexivity.
  fold plain. rewrite split_plain_join; [now apply hd_tl | exact Hne |].
  apply Forall_forall. intros e He.
  rewrite Forall_forall in Hesc.
  apply all_escaped_no_pair; [now apply Hesc|].
  destruct (join_mid [sep] e l He) as [a [b E]]. rewrite E in Hno.
  exact (no_occurrence_app_l _ _ _ (no_occurrence_app_r _ _ _ Hno)).
Qed.

(** Whichever path is taken, a joined text of well-formed fragments is
    split back into them. *)
Lemma splitOnUnescapedSeparator_join (l : list jsstring) :
  l <> [] ->
  Forall (all_escaped sep) l ->
  inner_ends_clean l = true ->
  is_prefix [backslash; sep] (hd [] l) = false ->
  splitOnUnescapedSeparator (join [sep] l) sep = l.
Proof.
  intros Hne Hesc Hends Hhd. unfold splitOnUnescapedSeparator.
  destruct (indexOf [backslash; sep] (join [sep] l) >? 0)%Z eqn:Hi.
  - now apply reverseSplit_join.
  - apply plain_split_join; try assumption.
    apply indexOf_negative.
    pose proof (indexOf_lower [backslash; sep] (join [sep] l)) as Hlo.
    rewrite Z.gtb_ltb in Hi. apply Z.ltb_ge in Hi.
    destruct (Z.eq_dec (indexOf [backslash; sep] (join [sep] l)) 0) as [E|E];
      [|lia].
    apply indexOf_zero in E. apply prefix_join in E; try assumption.
    congruence.
Qed.

(** The left-to-right check is sound for [all_escaped]. *)
Lemma escaped_scan_sound (s p : jsstring) :
  escaped_scan sep (Nat.odd (trail_run p)) s = true ->
  forall pre post, s = pre ++ sep :: post -> escaped_after (p ++ pre).
Proof.
  revert p. induction s as [|x s IH]; intros p H pre post E.
  - destruct pre; discriminate E.
  - cbn [escaped_scan] in H.
    destruct pre as [|p0 pre]; cbn [app] in E; injection E as -> E.
    + pose proof sep_not_escape as Hsep.
      apply N.eqb_neq in Hsep. rewrite Hsep, N.eqb_refl in H.
      apply andb_true_iff in H as [H _]. rewrite app_nil_r. exact H.
    + replace (p ++ p0 :: pre) with ((p ++ [p0]) ++ pre)
        by (now rewrite <- app_assoc).
      apply (IH (p ++ [p0])) with (post := post); [|exact E].
      rewrite trail_run_snoc.
      destruct (N.eqb p0 backslash).
      * rewrite Nat.odd_succ, <- Nat.negb_odd. exact H.
      * destruct (N.eqb p0 sep);
          [apply andb_true_iff in H as [_ H]|]; exact H.
Qed.

Lemma well_escaped_sound (s : jsstring) :
  well_escaped sep s = true -> all_escaped sep s.
Proof.
  intros H pre post E. exact (escaped_scan_sound s [] H pre post E).
Qed.

End JoinedText.

(** ** Escaped components as fragments *)

Lemma last_is_snoc (c x : char) (s : jsstring) :
  last_is c (s ++ [x]) = N.eqb x c.
Proof. unfold last_is. now rewrite rev_app_distr. Qed.

Lemma last_is_escape (c : jsstring) :
  last_is backslash (escape c) = last_is backslash c.
Proof.
  destruct c as [|x c _] using rev_ind; [reflexivity|].
  rewrite escape_app, escape_cons. change (escape []) with (@nil char).
  rewrite app_nil_r, (last_is_snoc backslash x c).
  destruct (char_cases x) as [-> | -> | -> | Hb Ht Hk].
  - rewrite enc_backslash.
    change [backslash; backslash] with ([backslash] ++ [backslash]).
    now rewrite app_assoc, last_is_snoc.
  - rewrite enc_tokenSeparator.
    change [backslash; tokenSeparator] with ([backslash] ++ [tokenSeparator]).
    now rewrite app_assoc, last_is_snoc.
  - rewrite enc_keySeparator.
    change [backslash; keySeparator] with ([backslash] ++ [keySeparator]).
    now rewrite app_assoc, last_is_snoc.
  - rewrite (enc_plain _ _ _ Hb Ht Hk). now rewrite last_is_snoc.
Qed.

Lemma inner_ends_clean_escape (l : list jsstring) :
  inner_ends_clean (map escape l) = inner_ends_clean l.
Proof.
  unfold inner_ends_clean. rewrite removelast_map.
  induction (removelast l) as [|c r IH]; [reflexivity|].
  cbn [map forallb]. now rewrite last_is_escape, IH.
Qed.

Lemma escaped_sep_prefix (sep : char) (c : jsstring) :
  sep = tokenSeparator \/ sep = keySeparator ->
  is_prefix [backslash; sep] (escape c) = head_is sep c.
Proof.
  intros Hsep. destruct c as [|x c]; [reflexivity|].
  rewrite escape_cons. cbn [head_is].
  destruct (char_cases x) as [-> | -> | -> | Hb Ht Hk].
  - rewrite enc_backslash. destruct Hsep as [-> | ->]; reflexivity.
  - rewrite enc_tokenSeparator. destruct Hsep as [-> | ->]; reflexivity.
  - rewrite enc_keySeparator. destruct Hsep as [-> | ->]; reflexivity.
  - rewrite (enc_plain _ _ _ Hb Ht Hk). cbn [app is_prefix].
    assert (E : N.eqb backslash x = false)
      by (apply N.eqb_neq; congruence).
    rewrite E. cbn [andb]. symmetry. apply N.eqb_neq.
    destruct Hsep as [-> | ->]; congruence.
Qed.

Lemma map_unescape_escape (l : list jsstring) :
  map unescape (map escape l) = l.
Proof.
  rewrite map_map. rewrite (map_ext _ (fun x => x) unescape_escape).
  apply map_id.
Qed.

(** ** The store *)

Lemma nth_error_snoc (A : Type) (l : list A) (x : A) :
  nth_error (l ++ [x]) (length l) = Some x.
Proof. induction l as [|y l IH]; [reflexivity | exact IH]. Qed.

Lemma update_snoc (A : Type) (l : list A) (x y : A) :
  update (l ++ [x]) (length l) y = l ++ [y].
Proof. induction l as [|z l IH]; [reflexivity | cbn; now rewrite IH]. Qed.

Lemma nth_error_snoc_snoc (A : Type) (l : list A) (x y : A) :
  nth_error ((l ++ [x]) ++ [y]) (length l) = Some x.
Proof. induction l as [|z l IH]; [reflexivity | exact IH]. Qed.

(** What a call of [parseKey] returns and leaves behind, from any state. *)
Lemma parseKey_run (key : jsstring) (st : js_state) :
  parseKey key st =
  Some (mkParsedKey (hd_error (breakKey key)) (length (heap st)),
        mkState (heap st ++ [tl (breakKey key)]) (Some (length (heap st)))).
Proof.
  unfold parseKey, bind, new_array, assign_parts, read_parts, array_shift, ret.
  cbn [heap global_parts]. rewrite nth_error_snoc.
  destruct (breakKey key) as [|x t]; cbn [hd_error tl heap global_parts].
  - reflexivity.
  - now rewrite update_snoc.
Qed.

Lemma parseSearchKey_run (key : jsstring) (st : js_state) :
  parseSearchKey key st =
  Some (mkParsedSearchKey
          (nth_error (breakKey key) 0) (nth_error (breakKey key) 1)
          (nth_error (breakKey key) 2) (nth_error (breakKey key) 3)
          (nth_error (breakKey key) 4) (S (length (heap st))),
        mkState ((heap st ++ [breakKey key]) ++ [skipn 5 (breakKey key)])
                (Some (length (heap st)))).
Proof.
  unfold parseSearchKey, bind, new_array, assign_parts, read_parts,
    array_get, array_slice, ret.
  repeat (cbn [heap global_parts]; rewrite nth_error_snoc).
  unfold new_array. cbn [heap global_parts].
  rewrite length_app, Nat.add_1_r. reflexivity.
Qed.


(* ================================================================== *)
(** * Properties of the module                                        *)
(* ================================================================== *)

(** ** Key round trip *)

(** C1, as stated, fails on the empty sequence: [buildKey] maps it to the
    empty key, the same key as for the sequence of one empty component,
    and [breakKey] answers with that one. *)
Lemma breakKey_buildKey_empty :
  buildKey [] = buildKey [[]] /\ breakKey (buildKey []) <> [].
Proof. split; [reflexivity | discriminate]. Qed.

(** C1 (amended): for every non-empty sequence of strings [C] whose first
    component does not begin with KEY_SEP and in which no component other
    than the last ends with the escape character, breaking the key built
    from [C] gives [C] back; the components may contain the escape
    character, TOKEN_SEP and KEY_SEP anywhere else. *)
Theorem breakKey_buildKey_round_trip (C : list jsstring) :
  C <> [] ->
  head_is keySeparator (hd [] C) = false ->
  inner_ends_clean C = true ->
  breakKey (buildKey C) = C.
Proof.
  intros Hne Hhd Hends. unfold breakKey, buildKey.
  rewrite splitOnUnescapedSeparator_join.
  - apply map_unescape_escape.
  - discriminate.
  - destruct C; [congruence | discriminate].
  - apply Forall_forall. intros e He.
    apply in_map_iff in He as [c [<- _]].
    apply escape_all_escaped. now right.
  - now rewrite inner_ends_clean_escape.
  - destruct C as [|c C]; [congruence|]. cbn [map hd] in *.
    rewrite escaped_sep_prefix by (now right). exact Hhd.
Qed.

Lemma breakKey_buildKey_round_trip_witness :
  let C := [[backslash; Sample.a];
            [Sample.a; keySeparator; tokenSeparator];
            [Sample.b; backslash]] in
  C <> [] /\
  head_is keySeparator (hd [] C) = false /\
  inner_ends_clean C = true /\
  breakKey (buildKey C) = C.
Proof.
  intros C.
  assert (H1 : C <> []) by discriminate.
  assert (H2 : head_is keySeparator (hd [] C) = false) by reflexivity.
  assert (H3 : inner_ends_clean C = true) by reflexivity.
  exact (conj H1 (conj H2 (conj H3
           (breakKey_buildKey_round_trip C H1 H2 H3)))).
Defined.

(** ** Escape round trip *)

(** C2: [unescape (escape s) = s] for every string [s], where [escape]
    doubles the escape character first and then prefixes TOKEN_SEP and
    KEY_SEP, and [unescape] removes the separator escapes first and
    collapses doubled escape characters last. *)
Theorem unescape_escape_round_trip (s : jsstring) :
  unescape (escape s) = s /\
  escape s =
    replace_g (RChar keySeparator) [backslash; keySeparator]
      (replace_g (RChar tokenSeparator) [backslash; tokenSeparator]
         (replace_g (RChar backslash) [backslash; backslash] s)) /\
  (forall t,
     unescape t =
     replace_g (RSeq (RChar backslash) (RChar backslash)) [backslash]
       (replace_g (RSeq (RChar backslash) (RChar keySeparator)) [keySeparator]
          (replace_g (RSeq (RChar backslash) (RChar tokenSeparator))
             [tokenSeparator] t))).
Proof.
  split; [apply unescape_escape | split; reflexivity].
Qed.

(** ** The split engine *)

(** C3 on the code: the text that is an escaped KEY_SEP alone has its
    pair at index 0, so the fast path is taken and cuts at the escaped
    separator, where the general path and the specified split keep the
    text whole; and on the general path the even run of escape
    characters before a separator is dropped from the fragment. *)
Theorem splitOnUnescapedSeparator_divergence :
  splitOnUnescapedSeparator [backslash; keySeparator] keySeparator
    = [[backslash]; []] /\
  reverseSplit [backslash; keySeparator] (reverseSeparatorRegex keySeparator)
    = [[backslash; keySeparator]] /\
  split_unescaped_spec [backslash; keySeparator] keySeparator
    = [[backslash; keySeparator]] /\
  splitOnUnescapedSeparator
    [Sample.a; backslash; backslash; keySeparator; Sample.b] keySeparator
    = [[Sample.a]; [Sample.b]] /\
  split_unescaped_spec
    [Sample.a; backslash; backslash; keySeparator; Sample.b] keySeparator
    = [[Sample.a; backslash; backslash]; [Sample.b]].
Proof. repeat split; reflexivity. Qed.

(** ** Search keys *)

(** C4 on the code: [buildSearchKey] joins its arguments as they are; a
    value that is one escape character is not doubled, as [buildKey]
    would. *)
Theorem buildSearchKey_not_escaped :
  buildSearchKey Sample.TF Sample.f [backslash] None None
    = Sample.TF ++ [keySeparator] ++ Sample.f ++ [keySeparator]
      ++ [backslash] ++ [keySeparator] ++ [keySeparator] /\
  buildKey [Sample.TF; Sample.f; [backslash]; []; []]
    = Sample.TF ++ [keySeparator] ++ Sample.f ++ [keySeparator]
      ++ [backslash; backslash] ++ [keySeparator] ++ [keySeparator] /\
  buildSearchKey Sample.TF Sample.f [backslash] None None
    <> buildKey [Sample.TF; Sample.f; [backslash]; or_empty None; or_empty None].
Proof. repeat split; try reflexivity. discriminate. Qed.

(** C5 on the code: building a search key whose value is KEY_SEP and
    parsing it gives the empty string as value and one trailing
    component. *)
Theorem parseSearchKey_buildSearchKey_value_lost :
  forall st : js_state,
  exists res st',
    parseSearchKey
      (buildSearchKey Sample.TF Sample.f [keySeparator] None None) st
      = Some (res, st') /\
    sk_prefix res = Some Sample.TF /\
    sk_field res = Some Sample.f /\
    sk_value res = Some [] /\
    sk_filter res = Some [] /\
    sk_filterKey res = Some [] /\
    deref st' (sk_trailing res) = Some [[]].
Proof.
  intros st. rewrite parseSearchKey_run. eexists. eexists.
  split; [reflexivity|]. cbn [sk_prefix sk_field sk_value sk_filter
    sk_filterKey sk_trailing deref heap].
  repeat split.
  set (parts := breakKey _).
  replace (S (length (heap st))) with (length (heap st ++ [parts]))
    by (rewrite length_app; cbn [length]; lia).
  unfold deref. cbn [heap]. rewrite nth_error_snoc. reflexivity.
Qed.

(** ** Separator safety *)

(** C6: for every string [s], every occurrence of TOKEN_SEP or KEY_SEP
    in [escape s] is preceded by a run of escape characters of odd
    length: the output holds no unescaped separator. *)
Theorem escape_separator_safety (s pre post : jsstring) (sep : char) :
  sep = tokenSeparator \/ sep = keySeparator ->
  escape s = pre ++ sep :: post ->
  Nat.odd (trail_run pre) = true.
Proof.
  intros Hsep H. exact (escape_all_escaped sep s Hsep pre post H).
Qed.

Lemma escape_separator_safety_witness :
  let s := [Sample.a; backslash; tokenSeparator; Sample.b] in
  let pre := [Sample.a; backslash; backslash; backslash] in
  let post := [Sample.b] in
  escape s = pre ++ tokenSeparator :: post /\
  Nat.odd (trail_run pre) = true.
Proof.
  intros s pre post.
  assert (H : escape s = pre ++ tokenSeparator :: post) by reflexivity.
  exact (conj H (escape_separator_safety s pre post tokenSeparator
                   (or_introl eq_refl) H)).
Defined.

(** ** Tokens *)


(** C8 on the code: with [null] or [false] as separator the pattern is
    the empty one, and every text is cut between every two code units;
    the two-character text [a b] gives two tokens, not itself as the one
    token, and the empty text gives no token at all. *)
Theorem tokenize_null_separator :
  (forall text,
     tokenize text false SepNull = map (fun c => [c]) text /\
     tokenize text false SepFalse = map (fun c => [c]) text) /\
  tokenize [Sample.a; Sample.b] false SepNull = [[Sample.a]; [Sample.b]] /\
  tokenize [Sample.a; Sample.b] false SepNull <> [[Sample.a; Sample.b]] /\
  tokenize [] false SepNull = [].
Proof.
  split.
  - intros text. split; apply split_empty_pattern.
  - repeat split; try reflexivity. discriminate.
Qed.

(** ** Prefix check *)

Lemma keyHasPrefix_true (key prefix : jsstring) :
  keyHasPrefix key prefix = true <->
  exists rest, key = prefix ++ keySeparator :: rest.
Proof.
  unfold keyHasPrefix, str_eqb, substring0.
  destruct (list_eq_dec N.eq_dec (firstn (length prefix + 1) key)
              (prefix ++ [keySeparator])) as [E|E].
  - split; [intros _ | reflexivity].
    exists (skipn (length prefix + 1) key).
    rewrite <- (firstn_skipn (length prefix + 1) key) at 1.
    rewrite E, <- app_assoc. reflexivity.
  - split; [discriminate|]. intros [rest ->]. exfalso. apply E.
    change (prefix ++ keySeparator :: rest)
      with (prefix ++ [keySeparator] ++ rest).
    rewrite app_assoc.
    replace (length prefix + 1) with (length (prefix ++ [keySeparator]) + 0)
      by (rewrite length_app; cbn [length]; lia).
    rewrite firstn_app_2. cbn [firstn]. apply app_nil_r.
Qed.

(** C9, as stated, fails for a prefix that ends with the escape
    character: the key built from the one component [a KEY_SEP b] has the
    prefix [a \], and the KEY_SEP that follows it is an escaped one. *)
Lemma keyHasPrefix_escaped_sep :
  let key := buildKey [[Sample.a; keySeparator; Sample.b]] in
  let prefix := [Sample.a; backslash] in
  keyHasPrefix key prefix = true /\
  ~ prefix_then_unescaped_sep key prefix.
Proof.
  intros key prefix. split; [reflexivity|].
  intros [_ H]. discriminate H.
Qed.

(** C9 (amended): [keyHasPrefix key prefix] is true if and only if [key]
    starts with the text [prefix] followed immediately by KEY_SEP; for
    every prefix that does not end with an odd run of escape characters
    that is: followed immediately by one unescaped KEY_SEP.  The check is
    true for the key built from TF and x with prefix TF, and false for
    the key built from TFX and x. *)
Theorem keyHasPrefix_correct (key prefix : jsstring) :
  (keyHasPrefix key prefix = true <->
   exists rest, key = prefix ++ keySeparator :: rest) /\
  (Nat.even (trail_run prefix) = true ->
   (keyHasPrefix key prefix = true <->
    prefix_then_unescaped_sep key prefix)) /\
  keyHasPrefix (buildKey [Sample.TF; Sample.x]) Sample.TF = true /\
  keyHasPrefix (buildKey [Sample.TFX; Sample.x]) Sample.TF = false.
Proof.
  split; [apply keyHasPrefix_true|]. split; [|split; reflexivity].
  intros Hev. rewrite keyHasPrefix_true. unfold prefix_then_unescaped_sep.
  tauto.
Qed.

Lemma keyHasPrefix_correct_witness :
  let key := buildKey [Sample.TF; Sample.x] in
  Nat.even (trail_run Sample.TF) = true /\
  (keyHasPrefix key Sample.TF = true <->
   prefix_then_unescaped_sep key Sample.TF).
Proof.
  intros key.
  assert (H : Nat.even (trail_run Sample.TF) = true) by reflexivity.
  exact (conj H (proj1 (proj2 (keyHasPrefix_correct key Sample.TF)) H)).
Defined.

(** ** The global [parts] *)

(** C10: from any state, also one in which [parts] was never bound, a
    call of [parseKey] or of [parseSearchKey] returns and leaves the
    global [parts] bound to the array of its own components (for
    [parseKey] the very array it returns, after the shift); the two
    functions write the same global, so a call of one after the other
    replaces the binding the first one left. *)
Theorem parts_is_shared_global (k1 k2 : jsstring) (st : js_state) :
  (exists res st1,
     parseKey k1 st = Some (res, st1) /\
     global_parts st1 = Some (pk_parts res) /\
     deref st1 (pk_parts res) = Some (tl (breakKey k1))) /\
  (exists res st1 r,
     parseSearchKey k1 st = Some (res, st1) /\
     global_parts st1 = Some r /\
     deref st1 r = Some (breakKey k1)) /\
  (exists res1 st1 res2 st2 r,
     parseKey k1 st = Some (res1, st1) /\
     parseSearchKey k2 st1 = Some (res2, st2) /\
     global_parts st2 = Some r /\
     global_parts st2 <> global_parts st1 /\
     deref st2 r = Some (breakKey k2)) /\
  (exists res1 st1 res2 st2 r,
     parseSearchKey k1 st = Some (res1, st1) /\
     parseKey k2 st1 = Some (res2, st2) /\
     global_parts st2 = Some r /\
     global_parts st2 <> global_parts st1 /\
     deref st2 r = Some (tl (breakKey k2))).
Proof.
  repeat split.
  - rewrite parseKey_run. eexists. eexists.
    split; [reflexivity|]. split; [reflexivity|].
    apply nth_error_snoc.
  - rewrite parseSearchKey_run. eexists. eexists. eexists.
    split; [reflexivity|]. split; [reflexivity|].
    apply nth_error_snoc_snoc.
  - rewrite parseKey_run. do 2 eexists. rewrite parseSearchKey_run.
    do 3 eexists. split; [reflexivity|]. split; [reflexivity|].
    cbn [heap global_parts]. split; [reflexivity|]. split.
    + rewrite length_app. cbn [length]. intros [= E]. lia.
    + unfold deref. cbn [heap]. apply nth_error_snoc_snoc.
  - rewrite parseSearchKey_run. do 2 eexists. rewrite parseKey_run.
    do 3 eexists. split; [reflexivity|]. split; [reflexivity|].
    cbn [heap global_parts]. split; [reflexivity|]. split.
    + rewrite !length_app. cbn [length]. intros [= E]. lia.
    + unfold deref. cbn [heap]. apply nth_error_snoc.
Qed.

(* ================================================================== *)
(** * Further properties: the escaper                                 *)
(* ================================================================== *)

Lemma enc_length (c : char) :
  length (enc true true c) = if is_special c then 2 else 1.
Proof.
  unfold is_special.
  destruct (char_cases c) as [-> | -> | -> | Hb Ht Hk]; try reflexivity.
  rewrite (enc_plain _ _ _ Hb Ht Hk).
  apply N.eqb_neq in Hb, Ht, Hk. now rewrite Hb, Ht, Hk.
Qed.

Lemma escape_length (s : jsstring) :
  length (escape s) = length s + count_special s.
Proof.
  unfold count_special. induction s as [|c s IH]; [reflexivity|].
  rewrite escape_cons, length_app, enc_length, IH. cbn [filter length].
  destruct (is_special c); cbn [length]; lia.
Qed.

Lemma count_special_le (s : jsstring) : count_special s <= length s.
Proof. unfold count_special. apply filter_length_le. Qed.

Lemma count_special_zero (s : jsstring) :
  count_special s = 0 <-> forallb (fun c => negb (is_special c)) s = true.
Proof.
  unfold count_special. induction s as [|c s IH]; [easy|].
  cbn [filter forallb]. destruct (is_special c); cbn [length negb andb].
  - split; [lia | discriminate].
  - exact IH.
Qed.

Lemma escape_plain (s : jsstring) :
  forallb (fun c => negb (is_special c)) s = true -> escape s = s.
Proof.
  induction s as [|c s IH]; [reflexivity|]. cbn [forallb].
  intros H. apply andb_true_iff in H as [Hc Hs].
  rewrite escape_cons, (IH Hs).
  unfold is_special in Hc. apply negb_true_iff in Hc.
  apply orb_false_iff in Hc as [Hc Hk]. apply orb_false_iff in Hc as [Hb Ht].
  apply N.eqb_neq in Hb, Ht, Hk. now rewrite (enc_plain _ _ _ Hb Ht Hk).
Qed.

(** X1: [escape] is injective: two strings with the same escaped text
    are the same string. *)
Theorem escape_injective (s t : jsstring) :
  escape s = escape t -> s = t.
Proof.
  intros H. rewrite <- (unescape_escape s), <- (unescape_escape t).
  now rewrite H.
Qed.

Lemma escape_injective_witness :
  let s := [Sample.a; keySeparator] in
  escape s = escape s /\ s = s.
Proof.
  intros s.
  exact (conj eq_refl (escape_injective s s eq_refl)).
Defined.

(** X2: the escaped text is longer than the text by exactly the number
    of its escape characters, TOKEN_SEPs and KEY_SEPs: never shorter,
    and at most twice as long. *)
Theorem escape_length_exact (s : jsstring) :
  length (escape s) = length s + count_special s /\
  length s <= length (escape s) <= 2 * length s.
Proof.
  pose proof (escape_length s). pose proof (count_special_le s). lia.
Qed.

(** X3: [escape] leaves a string as it is if and only if none of the
    three special characters occurs in it. *)
Theorem escape_fixed_iff (s : jsstring) :
  escape s = s <-> forallb (fun c => negb (is_special c)) s = true.
Proof.
  split; [|apply escape_plain].
  intros H. apply count_special_zero.
  pose proof (escape_length s) as L. rewrite H in L. lia.
Qed.

(** X4: [escape] works character by character: the escaped text of a
    concatenation is the concatenation of the escaped texts. *)
Theorem escape_concat (s t : jsstring) :
  escape (s ++ t) = escape s ++ escape t.
Proof. apply escape_app. Qed.

Lemma free_of_cons (c x : char) (s : jsstring) :
  free_of c (x :: s) = true <-> x <> c /\ free_of c s = true.
Proof.
  unfold free_of. cbn [forallb].
  rewrite andb_true_iff, negb_true_iff, N.eqb_neq. reflexivity.
Qed.

Lemma free_of_In (c : char) (s : jsstring) :
  free_of c s = true <-> ~ In c s.
Proof.
  induction s as [|x s IH]; [easy|].
  rewrite free_of_cons, IH. cbn [In]. intuition congruence.
Qed.

Lemma free_of_app (c : char) (s t : jsstring) :
  free_of c (s ++ t) = free_of c s && free_of c t.
Proof. apply forallb_app. Qed.

Lemma replace_pair_absent (a b : char) (rep s : jsstring) :
  free_of a s = true ->
  replace_g (RSeq (RChar a) (RChar b)) rep s = s.
Proof.
  induction s as [|x s IH]; [reflexivity|].
  intros H. apply free_of_cons in H as [Hx Hs].
  rewrite replace_pair_miss by (now left). now rewrite IH.
Qed.

Lemma unescape_plain (s : jsstring) :
  free_of backslash s = true -> unescape s = s.
Proof.
  intros H. unfold unescape, unescapeTokenSeparatorRegex,
    unescapeKeySeparatorRegex, unescapeBackslashRegex.
  rewrite !(replace_pair_absent _ _ _ s H). reflexivity.
Qed.

(** A global replace of a two-character pattern by one character never
    makes the text longer. *)
Lemma replace_pair_length (a b c : char) (n : nat) :
  forall s, length s <= n ->
    length (replace_g (RSeq (RChar a) (RChar b)) [c] s) <= length s.
Proof.
  induction n as [|n IH]; intros s Hn.
  - destruct s; [cbn; lia | cbn [length] in Hn; lia].
  - destruct s as [|x [|y s]]; [cbn; lia | |].
    + destruct (N.eq_dec x a) as [-> | Hx].
      * rewrite replace_pair_miss by (right; intros ? ? [=]). cbn. lia.
      * rewrite replace_pair_miss by (now left). cbn. lia.
    + cbn [length] in Hn.
      destruct (N.eq_dec x a) as [-> | Hx];
        [destruct (N.eq_dec y b) as [-> | Hy]|].
      * rewrite replace_pair_hit. cbn [app length].
        specialize (IH s ltac:(lia)). lia.
      * rewrite replace_pair_miss by (right; intros ? ? [= <- _]; exact Hy).
        cbn [length]. specialize (IH (y :: s) ltac:(cbn [length]; lia)).
        cbn [length] in IH. lia.
      * rewrite replace_pair_miss by (now left).
        cbn [length]. specialize (IH (y :: s) ltac:(cbn [length]; lia)).
        cbn [length] in IH. lia.
Qed.

(** X5: [unescape] leaves a string without the escape character as it
    is. *)
Theorem unescape_without_escape_char (s : jsstring) :
  free_of backslash s = true -> unescape s = s.
Proof. apply unescape_plain. Qed.

Lemma unescape_without_escape_char_witness :
  let s := [Sample.a; tokenSeparator; keySeparator; Sample.b] in
  free_of backslash s = true /\ unescape s = s.
Proof.
  intros s.
  assert (H : free_of backslash s = true) by reflexivity.
  exact (conj H (unescape_without_escape_char s H)).
Defined.

(** X6: [unescape] never makes a string longer, whatever the string,
    escaped by this module or not. *)
Theorem unescape_length (s : jsstring) :
  length (unescape s) <= length s.
Proof.
  unfold unescape, unescapeTokenSeparatorRegex, unescapeKeySeparatorRegex,
    unescapeBackslashRegex.
  pose proof (replace_pair_length backslash tokenSeparator tokenSeparator
                (length s) s (Nat.le_refl _)) as H1.
  set (s1 := replace_g _ _ s) in *.
  pose proof (replace_pair_length backslash keySeparator keySeparator
                (length s1) s1 (Nat.le_refl _)) as H2.
  set (s2 := replace_g _ _ s1) in *.
  pose proof (replace_pair_length backslash backslash backslash
                (length s2) s2 (Nat.le_refl _)) as H3.
  lia.
Qed.

(* ================================================================== *)
(** * Further properties: the split engine                            *)
(* ================================================================== *)

Lemma split_loop_nonempty (m : matcher) (s : jsstring) :
  forall skip acc, split_loop m skip acc s <> [].
Proof.
  induction s as [|c s IH]; intros skip acc; cbn [split_loop];
    [discriminate|].
  destruct skip as [|k]; [|apply IH].
  destruct (m (c :: s)) as [[|k]|]; try discriminate; try apply IH.
  destruct acc; [apply IH | discriminate].
Qed.

Lemma no_occurrence_tail (pat : jsstring) (x : char) (s : jsstring) :
  no_occurrence pat (x :: s) -> no_occurrence pat s.
Proof. apply (no_occurrence_app_r pat [x] s). Qed.

Lemma no_pair_head (a b : char) (s : jsstring) :
  no_occurrence [a; b] (a :: s) -> head_is b s = false.
Proof.
  intros H. destruct s as [|y s]; [reflexivity|]. cbn [head_is].
  apply N.eqb_neq. intros ->. now apply (H [] s).
Qed.

(** Without the pair escape character, separator in the text, the scan
    of the specification and the plain split go the same way. *)
Lemma spec_scan_plain (sep : char) (s : jsstring) :
  sep <> backslash ->
  forall odd_run acc,
    no_occurrence [backslash; sep] s ->
    (odd_run = true -> head_is sep s = false) ->
    split_unescaped_loop sep odd_run acc s =
    split_loop (match_str [sep]) 0 acc s.
Proof.
  intros Hsep. induction s as [|x s IH]; intros odd_run acc Hno Hodd;
    [reflexivity|].
  cbn [split_unescaped_loop split_loop]. rewrite match_str_char.
  destruct (N.eqb_spec x backslash) as [-> | Hx].
  - assert (E : N.eqb backslash sep = false)
      by (apply N.eqb_neq; congruence).
    rewrite E. apply IH.
    + exact (no_occurrence_tail _ _ _ Hno).
    + intros _. exact (no_pair_head _ _ _ Hno).
  - destruct (N.eqb_spec x sep) as [-> | Hxs].
    + destruct odd_run.
      * specialize (Hodd eq_refl). cbn [head_is] in Hodd.
        rewrite N.eqb_refl in Hodd. discriminate Hodd.
      * cbn [negb andb]. f_equal. apply IH.
        -- exact (no_occurrence_tail _ _ _ Hno).
        -- discriminate.
    + cbn [andb]. apply IH.
      * exact (no_occurrence_tail _ _ _ Hno).
      * discriminate.
Qed.

(** Joining the pieces of a plain split gives the text back. *)
Lemma join_split_loop (sep : char) (s : jsstring) :
  forall acc,
    join [sep] (split_loop (match_str [sep]) 0 acc s) = rev acc ++ s.
Proof.
  induction s as [|x s IH]; intros acc.
  - cbn. now rewrite app_nil_r.
  - cbn [split_loop]. rewrite match_str_char.
    destruct (N.eqb_spec x sep) as [-> | Hx].
    + rewrite join_cons by apply split_loop_nonempty.
      rewrite IH. reflexivity.
    + rewrite IH. cbn [rev]. now rewrite <- app_assoc.
Qed.

Lemma join_split_plain (sep : char) (s : jsstring) :
  join [sep] (split (match_str [sep]) s) = s.
Proof.
  rewrite split_start by reflexivity. apply join_split_loop.
Qed.

(** X7: where the escape character never stands before the separator
    in the text ([indexOf] of the pair is -1), [splitOnUnescapedSeparator]
    is the split of the specification: it cuts at every separator and
    keeps every other character. *)
Theorem splitOnUnescapedSeparator_no_pair (text : jsstring) (sep : char) :
  sep <> backslash ->
  indexOf [backslash; sep] text = (-1)%Z ->
  splitOnUnescapedSeparator text sep = split_unescaped_spec text sep.
Proof.
  intros Hsep Hi. unfold splitOnUnescapedSeparator, split_unescaped_spec.
  rewrite Hi. cbn [Z.gtb Z.compare].
  rewrite split_start by reflexivity. symmetry.
  apply spec_scan_plain; [exact Hsep | | discriminate].
  apply indexOf_negative. lia.
Qed.

Lemma splitOnUnescapedSeparator_no_pair_witness :
  let text := [Sample.a; keySeparator; backslash; Sample.b; keySeparator] in
  keySeparator <> backslash /\
  indexOf [backslash; keySeparator] text = (-1)%Z /\
  splitOnUnescapedSeparator text keySeparator
  = split_unescaped_spec text keySeparator /\
  split_unescaped_spec text keySeparator
  = [[Sample.a]; [backslash; Sample.b]; []].
Proof.
  intros text.
  assert (H1 : keySeparator <> backslash) by discriminate.
  assert (H2 : indexOf [backslash; keySeparator] text = (-1)%Z)
    by reflexivity.
  exact (conj H1 (conj H2 (conj
           (splitOnUnescapedSeparator_no_pair text keySeparator H1 H2)
           eq_refl))).
Defined.

(** X8: on the fast path ([indexOf] of the pair escape character,
    separator is at most 0) no character is lost: joining the fragments
    with the separator gives the text back. *)
Theorem splitOnUnescapedSeparator_fast_path_join
    (text : jsstring) (sep : char) :
  (indexOf [backslash; sep] text <= 0)%Z ->
  join [sep] (splitOnUnescapedSeparator text sep) = text.
Proof.
  intros Hi. unfold splitOnUnescapedSeparator.
  rewrite Z.gtb_ltb. apply Z.ltb_ge in Hi. rewrite Hi.
  apply join_split_plain.
Qed.

Lemma splitOnUnescapedSeparator_fast_path_join_witness :
  let text := [backslash; keySeparator; Sample.a; keySeparator] in
  (indexOf [backslash; keySeparator] text <= 0)%Z /\
  join [keySeparator] (splitOnUnescapedSeparator text keySeparator) = text.
Proof.
  intros text.
  assert (H : (indexOf [backslash; keySeparator] text <= 0)%Z)
    by (vm_compute; discriminate).
  exact (conj H (splitOnUnescapedSeparator_fast_path_join
                   text keySeparator H)).
Defined.

Lemma splitOnUnescapedSeparator_nonempty (text : jsstring) (sep : char) :
  splitOnUnescapedSeparator text sep <> [].
Proof.
  unfold splitOnUnescapedSeparator, reverseSplit.
  destruct (indexOf [backslash; sep] text >? 0)%Z.
  - rewrite split_start by reflexivity. intros E.
    apply (f_equal (@rev jsstring)) in E. rewrite rev_involutive in E.
    apply map_eq_nil in E. revert E. apply split_loop_nonempty.
  - rewrite split_start by reflexivity. apply split_loop_nonempty.
Qed.

Lemma breakKey_nonempty (key : jsstring) : breakKey key <> [].
Proof.
  unfold breakKey. intros E. apply map_eq_nil in E.
  revert E. apply splitOnUnescapedSeparator_nonempty.
Qed.

Lemma split_loop_skip (m : matcher) (a b acc : jsstring) :
  split_loop m (length a) acc (a ++ b) = split_loop m 0 acc b.
Proof. induction a as [|x a IH]; [reflexivity | exact IH]. Qed.

Lemma lead_run_repeat (n : nat) (r : jsstring) :
  head_is backslash r = false ->
  lead_run (repeat backslash n ++ r) = n.
Proof.
  intros H. induction n as [|n IH]; cbn [repeat app lead_run].
  - now apply lead_run_zero.
  - now rewrite N.eqb_refl, IH.
Qed.

Lemma even_double (k : nat) : Nat.even (2 * k) = true.
Proof. apply Nat.even_spec. now exists k. Qed.

(** The reversed split of a reversed text whose last unescaped
    separator stands after an even run of escape characters. *)
Lemma split_reversed_last_cut (sep : char) (pre post : jsstring) (k : nat) :
  sep <> backslash ->
  last_is backslash pre = false ->
  all_escaped sep post ->
  split (match_re (reverseSeparatorRegex sep))
    (rev (pre ++ repeat backslash (2 * k) ++ sep :: post)) =
  rev post :: split (match_re (reverseSeparatorRegex sep)) (rev pre).
Proof.
  intros Hsep Hpre Hesc.
  rewrite !split_start by reflexivity.
  rewrite !rev_app_distr, rev_repeat. cbn [rev]. rewrite <- !app_assoc.
  cbn [app].
  rewrite scan_reverse.
  - cbn [split_loop]. rewrite match_reverse_separator, N.eqb_refl.
    rewrite (lead_run_repeat _ _ Hpre), even_double.
    rewrite app_nil_r, rev_involutive. f_equal.
    rewrite <- (repeat_length backslash (2 * k)) at 1.
    apply split_loop_skip.
  - intros a b E. rewrite lead_run_app_stop.
    + apply (f_equal (@rev char)) in E. rewrite rev_involutive in E.
      rewrite rev_app_distr in E. cbn [rev] in E. rewrite <- app_assoc in E.
      specialize (Hesc _ _ E). unfold escaped_after, trail_run in Hesc.
      now rewrite rev_involutive in Hesc.
    + cbn [head_is]. now apply N.eqb_neq.
Qed.

(** X9: the general path on a text in which every separator is escaped
    (preceded by an odd run of escape characters): the text comes back
    whole, as one fragment. *)
Theorem reverseSplit_no_cut (sep : char) (text : jsstring) :
  sep <> backslash ->
  well_escaped sep text = true ->
  reverseSplit text (reverseSeparatorRegex sep) = [text].
Proof.
  intros Hsep H.
  apply (reverseSplit_join sep Hsep [text]).
  - discriminate.
  - constructor; [|constructor]. now apply well_escaped_sound.
  - reflexivity.
Qed.

Lemma reverseSplit_no_cut_witness :
  let text := [Sample.a; backslash; backslash; backslash; keySeparator;
               backslash; backslash] in
  keySeparator <> backslash /\
  well_escaped keySeparator text = true /\
  reverseSplit text (reverseSeparatorRegex keySeparator) = [text].
Proof.
  intros text.
  assert (H1 : keySeparator <> backslash) by discriminate.
  assert (H2 : well_escaped keySeparator text = true) by reflexivity.
  exact (conj H1 (conj H2 (reverseSplit_no_cut keySeparator text H1 H2))).
Defined.

(** X10: the general path at the last unescaped separator of a text.
    When the text is [pre], then an even run of escape characters (with
    [pre] not ending in one), then the separator, then a [post] whose
    separators are all escaped: the last fragment is [post], the ones
    before it are those of [pre] alone, and the run of escape characters
    is in none of them. *)
Theorem reverseSplit_last_cut (sep : char) (pre post : jsstring) (k : nat) :
  sep <> backslash ->
  last_is backslash pre = false ->
  well_escaped sep post = true ->
  reverseSplit (pre ++ repeat backslash (2 * k) ++ sep :: post)
    (reverseSeparatorRegex sep)
  = reverseSplit pre (reverseSeparatorRegex sep) ++ [post].
Proof.
  intros Hsep Hpre Hpost. unfold reverseSplit.
  rewrite !reverse_string_rev.
  rewrite split_reversed_last_cut;
    [| exact Hsep | exact Hpre | now apply well_escaped_sound].
  cbn [map rev]. now rewrite reverse_string_rev, rev_involutive.
Qed.

Lemma reverseSplit_last_cut_witness :
  let pre := [Sample.a; keySeparator; Sample.b] in
  let post := [backslash; keySeparator; Sample.a] in
  keySeparator <> backslash /\
  last_is backslash pre = false /\
  well_escaped keySeparator post = true /\
  reverseSplit (pre ++ repeat backslash (2 * 1) ++ keySeparator :: post)
    (reverseSeparatorRegex keySeparator)
  = reverseSplit pre (reverseSeparatorRegex keySeparator) ++ [post].
Proof.
  intros pre post.
  assert (H1 : keySeparator <> backslash) by discriminate.
  assert (H2 : last_is backslash pre = false) by reflexivity.
  assert (H3 : well_escaped keySeparator post = true) by reflexivity.
  exact (conj H1 (conj H2 (conj H3
           (reverseSplit_last_cut keySeparator pre post 1 H1 H2 H3)))).
Defined.

(* ================================================================== *)
(** * Further properties: parsing                                     *)
(* ================================================================== *)

Lemma indexOf_absent (a b : char) (s : jsstring) :
  free_of b s = true -> indexOf [a; b] s = (-1)%Z.
Proof.
  induction s as [|x s IH]; [reflexivity|].
  intros H. apply free_of_cons in H as [Hx Hs].
  cbn [indexOf is_prefix]. rewrite (IH Hs). cbn [Z.ltb Z.compare].
  destruct s as [|y s]; [now rewrite andb_false_r|].
  apply free_of_cons in Hs as [Hy _].
  assert (E : N.eqb b y = false) by (apply N.eqb_neq; congruence).
  rewrite E. cbn [andb]. now rewrite andb_false_r.
Qed.

(** A text without the separator is one fragment. *)
Lemma splitOnUnescapedSeparator_absent (sep : char) (text : jsstring) :
  free_of sep text = true ->
  splitOnUnescapedSeparator text sep = [text].
Proof.
  intros H. unfold splitOnUnescapedSeparator.
  rewrite (indexOf_absent backslash sep text H). cbn [Z.gtb Z.compare].
  rewrite split_start by reflexivity.
  rewrite <- (app_nil_r text) at 1.
  rewrite scan_plain by (now apply free_of_In).
  cbn [split_loop]. now rewrite app_nil_r, rev_involutive.
Qed.

Lemma In_removelast (A : Type) (x : A) (l : list A) :
  In x (removelast l) -> In x l.
Proof.
  induction l as [|y [|z l] IH]; [easy | easy |].
  intros [-> | H]; [now left | right; now apply IH].
Qed.

Lemma last_is_free (c : char) (s : jsstring) :
  free_of c s = true -> last_is c s = false.
Proof.
  intros H. unfold last_is. destruct (rev s) as [|x r] eqn:E; [reflexivity|].
  cbn [head_is]. apply N.eqb_neq. intros ->.
  apply free_of_In in H. apply H, in_rev. rewrite E. now left.
Qed.

Lemma plain_component_spec (s : jsstring) :
  plain_component s = true ->
  free_of backslash s = true /\ free_of keySeparator s = true.
Proof. unfold plain_component. apply andb_true_iff. Qed.

(** Plain components joined with KEY_SEP break into themselves. *)
Lemma breakKey_plain_join (l : list jsstring) :
  l <> [] ->
  forallb plain_component l = true ->
  breakKey (join [keySeparator] l) = l.
Proof.
  intros Hne Hall. rewrite forallb_forall in Hall. unfold breakKey.
  rewrite splitOnUnescapedSeparator_join.
  - rewrite <- (map_id l) at 2. apply map_ext_in. intros e He.
    apply unescape_plain. now apply plain_component_spec, Hall.
  - discriminate.
  - exact Hne.
  - apply Forall_forall. intros e He pre post E.
    destruct (plain_component_spec e (Hall e He)) as [_ Hk].
    apply free_of_In in Hk. exfalso. apply Hk. rewrite E.
    apply in_or_app. right. now left.
  - unfold inner_ends_clean. apply forallb_forall. intros e He.
    apply negb_true_iff, last_is_free.
    now apply plain_component_spec, Hall, In_removelast.
  - destruct l as [|e l]; [congruence|]. cbn [hd].
    destruct (plain_component_spec e (Hall e (or_introl eq_refl)))
      as [Hb _].
    destruct e as [|x e]; [reflexivity|].
    apply free_of_cons in Hb as [Hx _]. cbn [is_prefix].
    assert (E : N.eqb backslash x = false)
      by (apply N.eqb_neq; congruence).
    now rewrite E.
Qed.

(** X11: [parseKey] returns for every key and from every state, and its
    prefix is never undefined: the prefix followed by the elements of the
    returned array is exactly [breakKey key]. *)
Theorem parseKey_prefix_defined (key : jsstring) (st : js_state) :
  exists res st' p rest,
    parseKey key st = Some (res, st') /\
    pk_prefix res = Some p /\
    deref st' (pk_parts res) = Some rest /\
    breakKey key = p :: rest.
Proof.
  rewrite parseKey_run.
  destruct (breakKey key) as [|p rest] eqn:E;
    [exfalso; exact (breakKey_nonempty key E)|].
  exists (mkParsedKey (Some p) (length (heap st))).
  eexists. exists p, rest.
  split; [reflexivity|]. split; [reflexivity|]. split; [|reflexivity].
  apply nth_error_snoc.
Qed.

(** X12: neither [parseKey] nor [parseSearchKey] touches an array that
    was there before the call: what an earlier call returned stays as it
    was, although the global [parts] is bound anew. *)
Theorem parse_keeps_earlier_arrays
    (key : jsstring) (st : js_state) (r : ref) (arr : list jsstring) :
  deref st r = Some arr ->
  (exists res st', parseKey key st = Some (res, st') /\
                   deref st' r = Some arr) /\
  (exists res st', parseSearchKey key st = Some (res, st') /\
                   deref st' r = Some arr).
Proof.
  unfold deref. intros H.
  assert (Hr : r < length (heap st))
    by (apply nth_error_Some; congruence).
  split.
  - rewrite parseKey_run. do 2 eexists. split; [reflexivity|].
    cbn [heap]. now rewrite nth_error_app1.
  - rewrite parseSearchKey_run. do 2 eexists. split; [reflexivity|].
    cbn [heap]. rewrite nth_error_app1 by (rewrite length_app; lia).
    now rewrite nth_error_app1.
Qed.

Lemma parse_keeps_earlier_arrays_witness :
  let st := mkState [[Sample.TF; Sample.x]] (Some 0) in
  deref st 0 = Some [Sample.TF; Sample.x] /\
  (exists res st', parseKey Sample.f st = Some (res, st') /\
                   deref st' 0 = Some [Sample.TF; Sample.x]) /\
  (exists res st', parseSearchKey Sample.f st = Some (res, st') /\
                   deref st' 0 = Some [Sample.TF; Sample.x]).
Proof.
  intros st.
  assert (H : deref st 0 = Some [Sample.TF; Sample.x]) by reflexivity.
  exact (conj H (parse_keeps_earlier_arrays Sample.f st 0
                   [Sample.TF; Sample.x] H)).
Defined.

(** X13: a key without KEY_SEP parses as a prefix alone: the prefix is
    the unescaped key, field, value, filter and filterKey are undefined,
    and trailing is empty. *)
Theorem parseSearchKey_single_component (key : jsstring) (st : js_state) :
  free_of keySeparator key = true ->
  exists res st',
    parseSearchKey key st = Some (res, st') /\
    sk_prefix res = Some (unescape key) /\
    sk_field res = None /\ sk_value res = None /\
    sk_filter res = None /\ sk_filterKey res = None /\
    deref st' (sk_trailing res) = Some [].
Proof.
  intros H. rewrite parseSearchKey_run. unfold breakKey.
  rewrite (splitOnUnescapedSeparator_absent keySeparator key H).
  do 2 eexists. split; [reflexivity|].
  cbn [sk_prefix sk_field sk_value sk_filter sk_filterKey sk_trailing
       map nth_error].
  repeat split. unfold deref. cbn [heap].
  replace (S (length (heap st)))
    with (length (heap st ++ [[unescape key]]))
    by (rewrite length_app; cbn [length]; lia).
  now rewrite nth_error_snoc.
Qed.

Lemma parseSearchKey_single_component_witness :
  let key := [Sample.a; backslash; backslash; tokenSeparator] in
  let st := mkState [] None in
  free_of keySeparator key = true /\
  exists res st',
    parseSearchKey key st = Some (res, st') /\
    sk_prefix res = Some (unescape key) /\
    sk_field res = None /\ sk_value res = None /\
    sk_filter res = None /\ sk_filterKey res = None /\
    deref st' (sk_trailing res) = Some [].
Proof.
  intros key st.
  assert (H : free_of keySeparator key = true) by reflexivity.
  exact (conj H (parseSearchKey_single_component key st H)).
Defined.

Lemma parseSearchKey_plain_join (l : list jsstring) (st : js_state) :
  l <> [] ->
  forallb plain_component l = true ->
  exists res st',
    parseSearchKey (join [keySeparator] l) st = Some (res, st') /\
    sk_prefix res = nth_error l 0 /\
    sk_field res = nth_error l 1 /\
    sk_value res = nth_error l 2 /\
    sk_filter res = nth_error l 3 /\
    sk_filterKey res = nth_error l 4 /\
    deref st' (sk_trailing res) = Some (skipn 5 l).
Proof.
  intros Hne Hall. rewrite parseSearchKey_run.
  rewrite (breakKey_plain_join l Hne Hall).
  do 2 eexists. split; [reflexivity|].
  cbn [sk_prefix sk_field sk_value sk_filter sk_filterKey sk_trailing].
  repeat split. unfold deref. cbn [heap].
  replace (S (length (heap st))) with (length (heap st ++ [l]))
    by (rewrite length_app; cbn [length]; lia).
  now rewrite nth_error_snoc.
Qed.

(** X14: a key that joins plain components (no escape character, no
    KEY_SEP in any of them) with KEY_SEP, however many, parses without
    loss: the components at positions 0 to 4 are in the named fields
    (undefined where the key has fewer), and those from position 5 on are
    in trailing, in order. *)
Theorem parseSearchKey_plain_components
    (l : list jsstring) (st : js_state) :
  l <> [] ->
  forallb plain_component l = true ->
  exists res st',
    parseSearchKey (join [keySeparator] l) st = Some (res, st') /\
    sk_prefix res = nth_error l 0 /\
    sk_field res = nth_error l 1 /\
    sk_value res = nth_error l 2 /\
    sk_filter res = nth_error l 3 /\
    sk_filterKey res = nth_error l 4 /\
    deref st' (sk_trailing res) = Some (skipn 5 l).
Proof. apply parseSearchKey_plain_join. Qed.

Lemma parseSearchKey_plain_components_witness :
  let l := [Sample.TF; Sample.f; Sample.x; []; [tokenSeparator];
            Sample.x; Sample.TFX] in
  let st := mkState [] None in
  l <> [] /\
  forallb plain_component l = true /\
  exists res st',
    parseSearchKey (join [keySeparator] l) st = Some (res, st') /\
    sk_prefix res = nth_error l 0 /\
    sk_field res = nth_error l 1 /\
    sk_value res = nth_error l 2 /\
    sk_filter res = nth_error l 3 /\
    sk_filterKey res = nth_error l 4 /\
    deref st' (sk_trailing res) = Some (skipn 5 l).
Proof.
  intros l st.
  assert (H1 : l <> []) by discriminate.
  assert (H2 : forallb plain_component l = true) by reflexivity.
  exact (conj H1 (conj H2 (parseSearchKey_plain_components l st H1 H2))).
Defined.

(** X15: the search-key round trip on plain components: when prefix,
    field, value and the given filter and filterKey hold neither the
    escape character nor KEY_SEP, parsing the key that [buildSearchKey]
    builds gives the five values back (the empty string for a filter or
    filterKey that was left out) and an empty trailing. *)
Theorem parseSearchKey_buildSearchKey_plain
    (prefix field value : jsstring) (filter filterKey : option jsstring)
    (st : js_state) :
  forallb plain_component
    [prefix; field; value; or_empty filter; or_empty filterKey] = true ->
  exists res st',
    parseSearchKey (buildSearchKey prefix field value filter filterKey) st
      = Some (res, st') /\
    sk_prefix res = Some prefix /\
    sk_field res = Some field /\
    sk_value res = Some value /\
    sk_filter res = Some (or_empty filter) /\
    sk_filterKey res = Some (or_empty filterKey) /\
    deref st' (sk_trailing res) = Some [].
Proof.
  intros H. unfold buildSearchKey.
  exact (parseSearchKey_plain_join
           [prefix; field; value; or_empty filter; or_empty filterKey] st
           ltac:(discriminate) H).
Qed.

Lemma parseSearchKey_buildSearchKey_plain_witness :
  let st := mkState [] None in
  forallb plain_component
    [Sample.TF; Sample.f; [Sample.a; tokenSeparator]; or_empty None;
     or_empty (Some Sample.x)] = true /\
  exists res st',
    parseSearchKey
      (buildSearchKey Sample.TF Sample.f [Sample.a; tokenSeparator]
         None (Some Sample.x)) st
      = Some (res, st') /\
    sk_prefix res = Some Sample.TF /\
    sk_field res = Some Sample.f /\
    sk_value res = Some [Sample.a; tokenSeparator] /\
    sk_filter res = Some (or_empty None) /\
    sk_filterKey res = Some (or_empty (Some Sample.x)) /\
    deref st' (sk_trailing res) = Some [].
Proof.
  intros st.
  assert (H : forallb plain_component
                [Sample.TF; Sample.f; [Sample.a; tokenSeparator];
                 or_empty None; or_empty (Some Sample.x)] = true)
    by reflexivity.
  exact (conj H (parseSearchKey_buildSearchKey_plain
                   Sample.TF Sample.f [Sample.a; tokenSeparator]
                   None (Some Sample.x) st H)).
Defined.

Lemma breakKey_buildKey_ok (C : list jsstring) :
  C <> [] ->
  head_is keySeparator (hd [] C) = false ->
  inner_ends_clean C = true ->
  breakKey (buildKey C) = C.
Proof.
  intros Hne Hhd Hends. unfold breakKey, buildKey.
  rewrite splitOnUnescapedSeparator_join.
  - apply map_unescape_escape.
  - discriminate.
  - destruct C; [congruence | discriminate].
  - apply Forall_forall. intros e He.
    apply in_map_iff in He as [c [<- _]].
    apply escape_all_escaped. now right.
  - now rewrite inner_ends_clean_escape.
  - destruct C as [|c C]; [congruence|]. cbn [map hd] in *.
    rewrite escaped_sep_prefix by (now right). exact Hhd.
Qed.

(** X16: building a key from a prefix and further components and
    parsing it with [parseKey] gives the prefix and, in the returned
    array, the further components, when the prefix does not begin with
    KEY_SEP and no component but the last ends with the escape
    character. *)
Theorem parseKey_buildKey
    (prefix : jsstring) (rest : list jsstring) (st : js_state) :
  head_is keySeparator prefix = false ->
  inner_ends_clean (prefix :: rest) = true ->
  exists res st',
    parseKey (buildKey (prefix :: rest)) st = Some (res, st') /\
    pk_prefix res = Some prefix /\
    deref st' (pk_parts res) = Some rest.
Proof.
  intros Hhd Hends. rewrite parseKey_run.
  rewrite (breakKey_buildKey_ok (prefix :: rest)
             ltac:(discriminate) Hhd Hends).
  do 2 eexists. split; [reflexivity|]. split; [reflexivity|].
  apply nth_error_snoc.
Qed.

Lemma parseKey_buildKey_witness :
  let prefix := Sample.TF in
  let rest := [[Sample.a; keySeparator]; [backslash]] in
  let st := mkState [] None in
  head_is keySeparator prefix = false /\
  inner_ends_clean (prefix :: rest) = true /\
  exists res st',
    parseKey (buildKey (prefix :: rest)) st = Some (res, st') /\
    pk_prefix res = Some prefix /\
    deref st' (pk_parts res) = Some rest.
Proof.
  intros prefix rest st.
  assert (H1 : head_is keySeparator prefix = false) by reflexivity.
  assert (H2 : inner_ends_clean (prefix :: rest) = true) by reflexivity.
  exact (conj H1 (conj H2 (parseKey_buildKey prefix rest st H1 H2))).
Defined.

(* ================================================================== *)
(** * Further properties: the prefix check                            *)
(* ================================================================== *)

Lemma keyHasPrefix_false (key prefix : jsstring) :
  keyHasPrefix key prefix = false <->
  ~ exists rest, key = prefix ++ keySeparator :: rest.
Proof.
  rewrite <- keyHasPrefix_true.
  destruct (keyHasPrefix key prefix); split; congruence.
Qed.

Lemma app_same_length (A : Type) (p q r r' : list A) :
  length p = length q -> p ++ r = q ++ r' -> p = q.
Proof.
  revert q. induction p as [|x p IH]; intros [|y q] Hl E;
    try discriminate Hl; [reflexivity|].
  cbn in E. injection E as -> E. f_equal.
  apply (IH q); [now injection Hl | exact E].
Qed.

(** X17: a key from [buildSearchKey] passes the check for its own
    prefix, whatever the five arguments, and fails it for every other
    prefix of the same length. *)
Theorem keyHasPrefix_buildSearchKey
    (prefix field value : jsstring) (filter filterKey : option jsstring) :
  keyHasPrefix (buildSearchKey prefix field value filter filterKey) prefix
    = true /\
  (forall other,
     length other = length prefix -> other <> prefix ->
     keyHasPrefix (buildSearchKey prefix field value filter filterKey) other
       = false).
Proof.
  unfold buildSearchKey. rewrite join_cons by discriminate. split.
  - apply keyHasPrefix_true. eexists. reflexivity.
  - intros other Hlen Hne. apply keyHasPrefix_false. intros [rest E].
    apply Hne. symmetry. exact (app_same_length _ _ _ _ _ (eq_sym Hlen) E).
Qed.

Lemma keyHasPrefix_buildSearchKey_witness :
  let key := buildSearchKey Sample.TF Sample.f Sample.x None None in
  length Sample.TF = length Sample.TF /\
  [Sample.b; Sample.a] <> Sample.TF /\
  keyHasPrefix key Sample.TF = true /\
  keyHasPrefix key [Sample.b; Sample.a] = false.
Proof.
  intros key.
  assert (H1 : length [Sample.b; Sample.a] = length Sample.TF)
    by reflexivity.
  assert (H2 : [Sample.b; Sample.a] <> Sample.TF) by discriminate.
  pose proof (keyHasPrefix_buildSearchKey
                Sample.TF Sample.f Sample.x None None) as T.
  exact (conj eq_refl (conj H2 (conj (proj1 T)
           (proj2 T [Sample.b; Sample.a] H1 H2)))).
Defined.

(** X18: the three families tell apart: a term-frequency key has the
    prefix TF and neither RI nor FI, a reverse-index key RI and neither
    TF nor FI, a field-info key FI and neither TF nor RI, whatever the
    field, value, filter and filterKey. *)
Theorem family_prefixes
    (field value : jsstring) (filter filterKey : option jsstring) :
  let TF := [84; 70]%N in
  let RI := [82; 73]%N in
  let FI := [70; 73]%N in
  let tf := buildTermFrequencyKey field value filter filterKey in
  let ri := buildReverseIndexKey field value filter filterKey in
  let fi := buildFieldInfoKey field value filter filterKey in
  (keyHasPrefix tf TF = true /\ keyHasPrefix tf RI = false /\
   keyHasPrefix tf FI = false) /\
  (keyHasPrefix ri RI = true /\ keyHasPrefix ri TF = false /\
   keyHasPrefix ri FI = false) /\
  (keyHasPrefix fi FI = true /\ keyHasPrefix fi TF = false /\
   keyHasPrefix fi RI = false).
Proof.
  intros TF RI FI tf ri fi.
  subst tf ri fi. unfold buildTermFrequencyKey, buildReverseIndexKey,
    buildFieldInfoKey, buildSearchKey.
  rewrite !join_cons by discriminate.
  repeat split; reflexivity.
Qed.

Lemma join_app (sep : jsstring) (l1 l2 : list jsstring) :
  l1 <> [] -> l2 <> [] ->
  join sep (l1 ++ l2) = join sep l1 ++ sep ++ join sep l2.
Proof.
  intros H1 H2. induction l1 as [|x l1 IH]; [congruence|].
  destruct l1 as [|y l1].
  - cbn [app]. now apply join_cons.
  - change ((x :: y :: l1) ++ l2) with (x :: ((y :: l1) ++ l2)).
    rewrite join_cons by discriminate.
    rewrite IH by discriminate.
    rewrite (join_cons sep x (y :: l1)) by discriminate.
    now rewrite <- !app_assoc.
Qed.

(** X19: a key built from a sequence of components that goes on after
    [C] passes the check for the key built from [C] as prefix: keys of
    longer sequences are found under the key of their first
    components. *)
Theorem keyHasPrefix_buildKey_extension (C more : list jsstring) :
  C <> [] -> more <> [] ->
  keyHasPrefix (buildKey (C ++ more)) (buildKey C) = true.
Proof.
  intros HC Hmore. unfold buildKey. rewrite map_app.
  rewrite join_app
    by (intros E; apply map_eq_nil in E; contradiction).
  apply keyHasPrefix_true. eexists. reflexivity.
Qed.

Lemma keyHasPrefix_buildKey_extension_witness :
  let C := [Sample.TF; [backslash; keySeparator]] in
  let more := [[]; Sample.x] in
  C <> [] /\ more <> [] /\
  keyHasPrefix (buildKey (C ++ more)) (buildKey C) = true.
Proof.
  intros C more.
  assert (H1 : C <> []) by discriminate.
  assert (H2 : more <> []) by discriminate.
  exact (conj H1 (conj H2 (keyHasPrefix_buildKey_extension C more H1 H2))).
Defined.

(** X20: a key that is not longer than the prefix never passes the
    check; so no string has itself as prefix, and the empty key has
    none. *)
Theorem keyHasPrefix_short_key (key prefix : jsstring) :
  length key <= length prefix ->
  keyHasPrefix key prefix = false.
Proof.
  intros Hlen. apply keyHasPrefix_false. intros [rest E].
  apply (f_equal (@length char)) in E.
  rewrite length_app in E. cbn [length] in E. lia.
Qed.

Lemma keyHasPrefix_short_key_witness :
  length Sample.TF <= length Sample.TF /\
  keyHasPrefix Sample.TF Sample.TF = false.
Proof.
  assert (H : length Sample.TF <= length Sample.TF) by (cbn; lia).
  exact (conj H (keyHasPrefix_short_key Sample.TF Sample.TF H)).
Defined.

(* ================================================================== *)
(** * Further properties: the tokenizer                               *)
(* ================================================================== *)

Lemma class_run_le (cs : list char) (s : jsstring) :
  class_run cs s <= length s.
Proof.
  induction s as [|x s IH]; cbn [class_run length]; [lia|].
  destruct (existsb (N.eqb x) cs); lia.
Qed.

(** The greedy loop over a character class takes the whole run. *)
Lemma star_class (cs : list char) (n : nat) :
  forall s, length s <= n ->
    star_loop (rmatch (RClass cs)) n s accept =
    Some (skipn (class_run cs s) s).
Proof.
  induction n as [|n IH]; intros s Hn.
  - destruct s; [reflexivity | cbn [length] in Hn; lia].
  - cbn [star_loop rmatch]. destruct s as [|x s]; [reflexivity|].
    cbn [class_run]. destruct (existsb (N.eqb x) cs); [|reflexivity].
    assert (Hlt : (length s <? length (x :: s)) = true)
      by (apply Nat.ltb_lt; cbn [length]; lia).
    rewrite Hlt, IH by (cbn [length] in Hn; lia). reflexivity.
Qed.

Lemma match_plus_class (cs : list char) (s : jsstring) :
  match_re (RPlus (RClass cs)) s =
  match s with
  | x :: r =>
      if existsb (N.eqb x) cs then Some (S (class_run cs r)) else None
  | [] => None
  end.
Proof.
  unfold match_re. destruct s as [|x r]; [reflexivity|].
  change (rmatch (RPlus (RClass cs)) (x :: r) accept)
    with (if existsb (N.eqb x) cs
          then star_loop (rmatch (RClass cs)) (length r) r accept
          else None).
  destruct (existsb (N.eqb x) cs); [|reflexivity].
  rewrite star_class by lia. f_equal.
  rewrite length_skipn. cbn [length]. pose proof (class_run_le cs r). lia.
Qed.

Lemma match_defaultWordSeparator (s : jsstring) :
  match_re defaultWordSeparator s =
  match s with
  | x :: r =>
      if is_word_separator x
      then Some (S (class_run wordSeparatorChars r)) else None
  | [] => None
  end.
Proof. apply (match_plus_class wordSeparatorChars). Qed.

Lemma one_word_rev (s : jsstring) : one_word (rev s) = one_word s.
Proof.
  unfold one_word. induction s as [|x s IH]; [reflexivity|].
  cbn [rev forallb]. rewrite forallb_app, IH. cbn [forallb].
  rewrite andb_true_r. apply andb_comm.
Qed.

Lemma one_word_app (s t : jsstring) :
  one_word (s ++ t) = one_word s && one_word t.
Proof. apply forallb_app. Qed.

Lemma tokens_one_word (s : jsstring) :
  forall skip acc,
    one_word acc = true ->
    Forall (fun t => one_word t = true)
      (split_loop (match_re defaultWordSeparator) skip acc s).
Proof.
  induction s as [|c s IH]; intros skip acc Hacc; cbn [split_loop].
  - constructor; [now rewrite one_word_rev | constructor].
  - destruct skip as [|k]; [|now apply IH].
    rewrite match_defaultWordSeparator.
    destruct (is_word_separator c) eqn:Hc.
    + constructor; [now rewrite one_word_rev | now apply IH].
    + apply IH. unfold one_word in *. cbn [forallb]. now rewrite Hc.
Qed.

Lemma scan_one_word (s : jsstring) :
  forall acc,
    one_word s = true ->
    split_loop (match_re defaultWordSeparator) 0 acc s = [rev acc ++ s].
Proof.
  induction s as [|c s IH]; intros acc H.
  - cbn. now rewrite app_nil_r.
  - unfold one_word in H. cbn [forallb] in H.
    apply andb_true_iff in H as [Hc Hs]. apply negb_true_iff in Hc.
    cbn [split_loop]. rewrite match_defaultWordSeparator, Hc.
    rewrite (IH _ Hs). cbn [rev]. now rewrite <- app_assoc.
Qed.

Lemma one_word_join (sep : char) (l : list jsstring) :
  is_word_separator sep = false ->
  Forall (fun t => one_word t = true) l ->
  one_word (join [sep] l) = true.
Proof.
  intros Hsep. induction l as [|x l IH]; intros H; [reflexivity|].
  inversion H as [|? ? Hx Hl]; subst.
  destruct l as [|y l]; [exact Hx|].
  rewrite join_cons by discriminate.
  rewrite !one_word_app, Hx, (IH Hl).
  unfold one_word. cbn [forallb]. now rewrite Hsep.
Qed.

Lemma one_word_escape (s : jsstring) :
  one_word (escape s) = one_word s.
Proof.
  induction s as [|c s IH]; [reflexivity|].
  rewrite escape_cons, one_word_app, IH.
  change (one_word (c :: s)) with (negb (is_word_separator c) && one_word s).
  f_equal.
  destruct (char_cases c) as [-> | -> | -> | Hb Ht Hk]; try reflexivity.
  rewrite (enc_plain _ _ _ Hb Ht Hk). unfold one_word. cbn [forallb].
  apply andb_true_r.
Qed.

(** X21: with the default separator no token holds a word separator
    (pipe, quote, space, dot, comma, hyphen, parenthesis, newline),
    whatever the text. *)
Theorem tokenize_default_tokens (text : jsstring) :
  Forall (fun t => one_word t = true) (tokenize text false SepUndefined).
Proof.
  cbn [tokenize]. rewrite split_start by reflexivity.
  now apply tokens_one_word.
Qed.

(** X22: with the default separator a text without word separators is
    its own single token; the empty text gives the one empty token. *)
Theorem tokenize_default_one_word (text : jsstring) :
  one_word text = true ->
  tokenize text false SepUndefined = [text].
Proof.
  intros H. cbn [tokenize]. rewrite split_start by reflexivity.
  now rewrite scan_one_word.
Qed.

Lemma tokenize_default_one_word_witness :
  let text := [Sample.a; backslash; tokenSeparator; Sample.b] in
  one_word text = true /\ tokenize text false SepUndefined = [text].
Proof.
  intros text.
  assert (H : one_word text = true) by reflexivity.
  exact (conj H (tokenize_default_one_word text H)).
Defined.

(** X23: with the default separator the encoded text holds no word
    separator at all: every run of them has become one TOKEN_SEP. *)
Theorem encode_default_no_separator (text : jsstring) :
  one_word (encode text SepUndefined) = true.
Proof.
  unfold encode. apply one_word_join; [reflexivity|].
  cbn [tokenize]. rewrite split_start by reflexivity.
  now apply tokens_one_word.
Qed.

(** X24: with the default separator, encoding a text without word
    separators only escapes it. *)
Theorem encode_default_one_word (text : jsstring) :
  one_word text = true ->
  encode text SepUndefined = escape text.
Proof.
  intros H. unfold encode. cbn [tokenize].
  rewrite split_start by reflexivity.
  rewrite scan_one_word by (now rewrite one_word_escape).
  reflexivity.
Qed.

Lemma encode_default_one_word_witness :
  let text := [Sample.a; keySeparator; backslash] in
  one_word text = true /\ encode text SepUndefined = escape text.
Proof.
  intros text.
  assert (H : one_word text = true) by reflexivity.
  exact (conj H (encode_default_one_word text H)).
Defined.

(* ================================================================== *)
(** * Further properties: breaking, then building                     *)
(* ================================================================== *)

Lemma indexOf_absent_first (a b : char) (s : jsstring) :
  free_of a s = true -> indexOf [a; b] s = (-1)%Z.
Proof.
  induction s as [|x s IH]; [reflexivity|].
  intros H. apply free_of_cons in H as [Hx Hs].
  cbn [indexOf is_prefix]. rewrite (IH Hs). cbn [Z.ltb Z.compare].
  assert (E : N.eqb a x = false) by (apply N.eqb_neq; congruence).
  now rewrite E.
Qed.

Lemma forallb_rev (A : Type) (P : A -> bool) (l : list A) :
  forallb P (rev l) = forallb P l.
Proof.
  induction l as [|x l IH]; [reflexivity|].
  cbn [rev forallb]. rewrite forallb_app, IH. cbn [forallb].
  rewrite andb_true_r. apply andb_comm.
Qed.

(** The pieces of a plain split hold only characters of the text, and
    never the separator. *)
Lemma split_plain_pieces (P : char -> bool) (sep : char) (s : jsstring) :
  forall acc,
    forallb P acc = true -> free_of sep acc = true ->
    forallb P s = true ->
    Forall (fun t => forallb P t = true /\ free_of sep t = true)
      (split_loop (match_str [sep]) 0 acc s).
Proof.
  induction s as [|x s IH]; intros acc Hacc Hfree Hs; cbn [split_loop].
  - constructor; [|constructor]. unfold free_of.
    now rewrite !forallb_rev.
  - cbn [forallb] in Hs. apply andb_true_iff in Hs as [Hx Hs].
    rewrite match_str_char. destruct (N.eqb_spec x sep) as [-> | Hne].
    + constructor; [unfold free_of; now rewrite !forallb_rev|].
      now apply IH.
    + apply IH; [cbn [forallb]; now rewrite Hx | | exact Hs].
      now apply free_of_cons.
Qed.

(** X25: breaking a key and building one from the result gives the key
    back when neither the escape character nor TOKEN_SEP occurs in the
    key. *)
Theorem buildKey_breakKey (key : jsstring) :
  free_of backslash key = true ->
  free_of tokenSeparator key = true ->
  buildKey (breakKey key) = key.
Proof.
  intros Hb Ht. unfold breakKey, splitOnUnescapedSeparator.
  rewrite (indexOf_absent_first backslash keySeparator key Hb).
  cbn [Z.gtb Z.compare].
  set (P := fun c => negb (N.eqb c backslash) &&
                     negb (N.eqb c tokenSeparator)).
  assert (HP : forallb P key = true).
  { unfold free_of in Hb, Ht. rewrite forallb_forall in Hb, Ht.
    apply forallb_forall. intros c Hc. unfold P.
    now rewrite (Hb c Hc), (Ht c Hc). }
  assert (Hpieces :
    Forall (fun t => forallb P t = true /\ free_of keySeparator t = true)
      (split (match_str [keySeparator]) key)).
  { rewrite split_start by reflexivity.
    now apply split_plain_pieces. }
  rewrite <- (join_split_plain keySeparator key) at 2.
  unfold buildKey. f_equal.
  rewrite <- (map_id (split _ key)) at 2. rewrite map_map.
  apply map_ext_in. intros t Hin.
  rewrite Forall_forall in Hpieces. destruct (Hpieces t Hin) as [Ht1 Ht2].
  assert (Hbs : free_of backslash t = true).
  { unfold free_of. rewrite forallb_forall in Ht1 |- *. intros c Hc.
    specialize (Ht1 c Hc). unfold P in Ht1.
    now apply andb_true_iff in Ht1 as [-> _]. }
  rewrite (unescape_plain t Hbs). apply escape_plain.
  unfold free_of in Ht2. rewrite forallb_forall in Ht1, Ht2 |- *.
  intros c Hc. specialize (Ht1 c Hc). specialize (Ht2 c Hc).
  unfold P in Ht1. apply andb_true_iff in Ht1 as [H1 H2].
  unfold is_special.
  apply negb_true_iff in H1, H2, Ht2. now rewrite H1, H2, Ht2.
Qed.

Lemma buildKey_breakKey_witness :
  let key := [Sample.a; keySeparator; keySeparator; Sample.b;
              keySeparator] in
  free_of backslash key = true /\
  free_of tokenSeparator key = true /\
  buildKey (breakKey key) = key.
Proof.
  intros key.
  assert (H1 : free_of backslash key = true) by reflexivity.
  assert (H2 : free_of tokenSeparator key = true) by reflexivity.
  exact (conj H1 (conj H2 (buildKey_breakKey key H1 H2))).
Defined.

(* ================================================================== *)
(** * Encoding, then splitting the encoded text                       *)
(* ================================================================== *)

(** ** Matchers of the class patterns *)

Lemma rmatch_char_class (c : char) (s : jsstring)
    (k : jsstring -> option jsstring) :
  rmatch (RChar c) s k = rmatch (RClass [c]) s k.
Proof.
  destruct s as [|x s]; [reflexivity|]. cbn [rmatch existsb].
  now rewrite orb_false_r.
Qed.

Lemma star_char_class (c : char) (n : nat) :
  forall s k,
    star_loop (rmatch (RChar c)) n s k =
    star_loop (rmatch (RClass [c])) n s k.
Proof.
  induction n as [|n IH]; intros s k; [reflexivity|].
  cbn [star_loop]. rewrite rmatch_char_class.
  rewrite (rmatch_ext (RClass [c]) s _
             (fun s' => if length s' <? length s
                        then star_loop (rmatch (RClass [c])) n s' k
                        else None));
    [reflexivity|].
  intros s' _. destruct (length s' <? length s); [apply IH | reflexivity].
Qed.

Lemma match_plus_char (c : char) (s : jsstring) :
  match_re (RPlus (RChar c)) s = match_re (RPlus (RClass [c])) s.
Proof.
  unfold match_re.
  change (rmatch (RPlus (RChar c)) s accept)
    with (rmatch (RChar c) s
            (fun s' => star_loop (rmatch (RChar c)) (length s') s' accept)).
  change (rmatch (RPlus (RClass [c])) s accept)
    with (rmatch (RClass [c]) s
            (fun s' => star_loop (rmatch (RClass [c])) (length s') s'
                         accept)).
  rewrite rmatch_char_class.
  rewrite (rmatch_ext (RClass [c]) s _
             (fun s' => star_loop (rmatch (RClass [c])) (length s') s'
                          accept));
    [reflexivity|].
  intros s' _. apply star_char_class.
Qed.

Lemma match_class (cs : list char) (s : jsstring) :
  match_re (RClass cs) s =
  match s with
  | x :: _ => if existsb (N.eqb x) cs then Some 1 else None
  | [] => None
  end.
Proof.
  unfold match_re. destruct s as [|x r]; cbn [rmatch]; [reflexivity|].
  destruct (existsb (N.eqb x) cs); [|reflexivity].
  unfold accept. f_equal. cbn [length]. lia.
Qed.

Lemma class_matcher_plus_class (cs : list char) :
  class_matcher cs (match_re (RPlus (RClass cs))).
Proof.
  split; [reflexivity|]. intros x r. rewrite match_plus_class.
  destruct (existsb (N.eqb x) cs); [|reflexivity].
  exists (class_run cs r). split; [reflexivity | lia].
Qed.

Lemma class_matcher_class (cs : list char) :
  class_matcher cs (match_re (RClass cs)).
Proof.
  split; [reflexivity|]. intros x r. rewrite match_class.
  destruct (existsb (N.eqb x) cs); [|reflexivity].
  exists 0. split; [reflexivity | lia].
Qed.

Lemma class_matcher_ext (cs : list char) (m m' : matcher) :
  (forall s, m' s = m s) -> class_matcher cs m -> class_matcher cs m'.
Proof.
  intros E [Hnil Hm]. split; [now rewrite E|].
  intros x r. specialize (Hm x r). rewrite E. exact Hm.
Qed.

(** Every class pattern has a class matcher. *)
Lemma class_of_pattern_matcher (r : regex) (cs : list char) :
  class_of_pattern r = Some cs -> class_matcher cs (match_re r).
Proof.
  destruct r as [|c|cs'|r1 r2|r1|r1|r1]; try discriminate.
  - intros [= <-].
    apply (class_matcher_ext [c] (match_re (RClass [c])));
      [|apply class_matcher_class].
    intros s. unfold match_re. now rewrite rmatch_char_class.
  - intros [= <-]. apply class_matcher_class.
  - destruct r1 as [|c|cs'| | | |]; try discriminate.
    + intros [= <-].
      apply (class_matcher_ext [c] (match_re (RPlus (RClass [c]))));
        [|apply class_matcher_plus_class].
      apply match_plus_char.
    + intros [= <-]. apply class_matcher_plus_class.
Qed.

(** ** The scan for escaped separators, piece by piece *)

Lemma run_parity_app (b : bool) (u v : jsstring) :
  run_parity b (u ++ v) = run_parity (run_parity b u) v.
Proof.
  revert b. induction u as [|x u IH]; intros b; [reflexivity|].
  cbn [app run_parity]. apply IH.
Qed.

Lemma escaped_scan_app (sep : char) (b : bool) (u v : jsstring) :
  escaped_scan sep b (u ++ v) =
  escaped_scan sep b u && escaped_scan sep (run_parity b u) v.
Proof.
  revert b. induction u as [|x u IH]; intros b; [reflexivity|].
  cbn [app escaped_scan run_parity].
  destruct (N.eqb x backslash); [apply IH|].
  destruct (N.eqb x sep); [|apply IH].
  rewrite IH. apply andb_assoc.
Qed.

(** Reading one more character of a text that passes the scan. *)
Lemma escaped_scan_step (sep : char) (b : bool) (c : char) (s : jsstring) :
  escaped_scan sep b (c :: s) = true ->
  escaped_scan sep b [c] = true /\
  escaped_scan sep (run_parity b [c]) s = true.
Proof.
  change (c :: s) with ([c] ++ s). rewrite escaped_scan_app.
  apply andb_true_iff.
Qed.

(** Stepping over a character that is neither the escape character nor
    the separator resets the scan. *)
Lemma escaped_scan_other (sep : char) (b : bool) (c : char) (s : jsstring) :
  N.eqb c backslash = false -> N.eqb c sep = false ->
  escaped_scan sep b (c :: s) = escaped_scan sep false s.
Proof. intros Hb Hs. cbn [escaped_scan]. now rewrite Hb, Hs. Qed.

Lemma inner_ends_clean_cons (t : jsstring) (l : list jsstring) :
  l <> [] ->
  inner_ends_clean (t :: l) =
  negb (last_is backslash t) && inner_ends_clean l.
Proof. destruct l; [congruence | reflexivity]. Qed.

Lemma class_char_plain (cs : list char) (x : char) :
  forallb (fun c => negb (is_special c)) cs = true ->
  existsb (N.eqb x) cs = true ->
  N.eqb x backslash = false /\ N.eqb x tokenSeparator = false /\
  N.eqb x keySeparator = false.
Proof.
  intros Hcs Hx. apply existsb_exists in Hx as [y [Hy E]].
  apply N.eqb_eq in E. subst y.
  rewrite forallb_forall in Hcs. specialize (Hcs x Hy).
  apply negb_true_iff in Hcs. unfold is_special in Hcs.
  apply orb_false_iff in Hcs as [Hcs Hk].
  apply orb_false_iff in Hcs as [Hb Ht]. auto.
Qed.

Lemma special_not_in_class (cs : list char) (x : char) :
  forallb (fun c => negb (is_special c)) cs = true ->
  is_special x = true ->
  existsb (N.eqb x) cs = false.
Proof.
  intros Hcs Hx. destruct (existsb (N.eqb x) cs) eqn:E; [|reflexivity].
  destruct (class_char_plain cs x Hcs E) as [Hb [Ht Hk]].
  unfold is_special in Hx. rewrite Hb, Ht, Hk in Hx. discriminate Hx.
Qed.

Section ClassSeparator.

(** A separator pattern over a class without the escape character,
    TOKEN_SEP and KEY_SEP. *)
Variable cs : list char.
Variable m : matcher.
Hypothesis m_class : class_matcher cs m.
Hypothesis cs_plain : forallb (fun c => negb (is_special c)) cs = true.

(** The pieces that the split loop cuts from a text that passes the scan
    for escaped TOKEN_SEPs and has no escape character before a class
    character: each passes the scan on its own, and none but the last
    ends with the escape character. *)
Lemma class_split_pieces (s : jsstring) :
  forall skip acc,
    escaped_scan tokenSeparator false (rev acc) = true ->
    escaped_scan tokenSeparator (run_parity false (rev acc)) s = true ->
    no_escape_before cs s = true ->
    (head_is backslash acc = true -> first_in cs s = false) ->
    skip <= class_run cs s ->
    (skip <> 0 -> acc = []) ->
    Forall (fun t => well_escaped tokenSeparator t = true)
      (split_loop m skip acc s) /\
    inner_ends_clean (split_loop m skip acc s) = true.
Proof.
  destruct m_class as [_ Hm].
  induction s as [|c s IH]; intros skip acc Ha Hb Hc Hd He Hf.
  - cbn [split_loop]. split; [|reflexivity].
    constructor; [exact Ha | constructor].
  - cbn [no_escape_before] in Hc. apply andb_true_iff in Hc as [Hc0 Hc].
    specialize (Hm c s).
    destruct skip as [|k]; cbn [split_loop].
    + destruct (existsb (N.eqb c) cs) eqn:Hin.
      * destruct Hm as [k [Ek Hk]]. rewrite Ek.
        destruct (class_char_plain cs c cs_plain Hin) as [Hcb [Hct _]].
        rewrite (escaped_scan_other _ _ _ _ Hcb Hct) in Hb.
        destruct (IH k [] eq_refl Hb Hc ltac:(discriminate) Hk
                    ltac:(reflexivity)) as [IH1 IH2].
        split; [constructor; assumption|].
        rewrite inner_ends_clean_cons by apply split_loop_nonempty.
        rewrite IH2, andb_true_r. apply negb_true_iff.
        unfold last_is. rewrite rev_involutive.
        destruct (head_is backslash acc) eqn:Hh; [|reflexivity].
        specialize (Hd eq_refl). cbn [first_in] in Hd. congruence.
      * rewrite Hm.
        destruct (escaped_scan_step _ _ _ _ Hb) as [Hb1 Hb2].
        apply IH.
        -- cbn [rev]. now rewrite escaped_scan_app, Ha, Hb1.
        -- cbn [rev]. now rewrite run_parity_app.
        -- exact Hc.
        -- cbn [head_is]. intros E. rewrite E in Hc0. cbn [andb] in Hc0.
           now apply negb_true_iff in Hc0.
        -- lia.
        -- congruence.
    + rewrite (Hf ltac:(discriminate)) in *. cbn [rev run_parity] in Hb.
      cbn [class_run] in He.
      destruct (existsb (N.eqb c) cs) eqn:Hin; [|lia].
      destruct (class_char_plain cs c cs_plain Hin) as [Hcb [Hct _]].
      rewrite (escaped_scan_other _ _ _ _ Hcb Hct) in Hb.
      apply IH; try assumption; try reflexivity; try discriminate. lia.
Qed.

(** What [escape] leaves of the two conditions on the text. *)
Lemma first_in_escape (s : jsstring) :
  first_in cs (escape s) = first_in cs s.
Proof.
  destruct s as [|c s]; [reflexivity|]. rewrite escape_cons.
  cbn [first_in].
  destruct (char_cases c) as [-> | -> | -> | Hb Ht Hk].
  - rewrite enc_backslash. cbn [app first_in]. reflexivity.
  - rewrite enc_tokenSeparator. cbn [app first_in].
    now rewrite !special_not_in_class by (assumption || reflexivity).
  - rewrite enc_keySeparator. cbn [app first_in].
    now rewrite !special_not_in_class by (assumption || reflexivity).
  - now rewrite (enc_plain _ _ _ Hb Ht Hk).
Qed.

Lemma no_escape_before_escape (s : jsstring) :
  no_escape_before cs s = true ->
  no_escape_before cs (escape s) = true.
Proof.
  assert (Hbs : existsb (N.eqb backslash) cs = false)
    by (now apply special_not_in_class).
  assert (Hts : existsb (N.eqb tokenSeparator) cs = false)
    by (now apply special_not_in_class).
  assert (Hks : existsb (N.eqb keySeparator) cs = false)
    by (now apply special_not_in_class).
  induction s as [|c s IH]; [reflexivity|].
  cbn [no_escape_before]. intros H. apply andb_true_iff in H as [H0 H].
  rewrite escape_cons. specialize (IH H).
  destruct (char_cases c) as [-> | -> | -> | Hb Ht Hk].
  - rewrite enc_backslash. cbn [app no_escape_before first_in].
    rewrite N.eqb_refl in *. cbn [andb] in *.
    now rewrite Hbs, first_in_escape, H0, IH.
  - rewrite enc_tokenSeparator. cbn [app no_escape_before first_in].
    now rewrite Hts, IH.
  - rewrite enc_keySeparator. cbn [app no_escape_before first_in].
    now rewrite Hks, IH.
  - rewrite (enc_plain _ _ _ Hb Ht Hk). cbn [app no_escape_before].
    apply N.eqb_neq in Hb. now rewrite Hb, IH.
Qed.

End ClassSeparator.

Lemma escaped_scan_escape (s : jsstring) :
  escaped_scan tokenSeparator false (escape s) = true.
Proof.
  induction s as [|c s IH]; [reflexivity|]. rewrite escape_cons.
  destruct (char_cases c) as [-> | -> | -> | Hb Ht Hk].
  - exact IH.
  - exact IH.
  - exact IH.
  - rewrite (enc_plain _ _ _ Hb Ht Hk). cbn [app].
    apply N.eqb_neq in Hb, Ht.
    now rewrite (escaped_scan_other _ _ _ _ Hb Ht).
Qed.

(** The first piece of a split is a prefix of the text. *)
Lemma split_loop_hd_prefix (m : matcher) (s : jsstring) :
  forall acc, exists v, rev acc ++ s = hd [] (split_loop m 0 acc s) ++ v.
Proof.
  induction s as [|c s IH]; intros acc; cbn [split_loop].
  - exists []. reflexivity.
  - destruct (m (c :: s)) as [[|k]|].
    + destruct acc as [|a acc].
      * destruct (IH [c]) as [v E]. exists v. exact E.
      * exists (c :: s). reflexivity.
    + exists (c :: s). reflexivity.
    + destruct (IH (c :: acc)) as [v E]. exists v. rewrite <- E.
      cbn [rev]. now rewrite <- app_assoc.
Qed.

Lemma is_prefix_app (p u v : jsstring) :
  is_prefix p u = true -> is_prefix p (u ++ v) = true.
Proof.
  intros H. apply is_prefix_true in H as [r ->].
  apply is_prefix_true. exists (r ++ v). now rewrite app_assoc.
Qed.

Lemma tokenize_pattern (text : jsstring) (sep : separator_arg) :
  tokenize text false sep = split (match_re (pattern_of_separator sep)) text.
Proof. destruct sep; reflexivity. Qed.


